(** * Hudsonrock_api_check: a shallow embedding of [Hudsonrock_api_check.py]

    The script cleans and validates a list of domain names, posts them in
    batches of 50 to an enrichment API from a pool of four worker threads,
    and keeps every domain the API reports that was also part of the input.

    Modelling choices, all taken from the source:
    - a Python [str] is a list of Unicode code points ([N]); the literals of
      the script are ASCII and written with [py "..."];
    - a Python [set] of strings is a [gset str]; [list(s)] is [elements s],
      an order that is fixed for a set that is not mutated;
    - the response body is taken to follow the API contract: an array of
      objects whose keys [employeeAt] and [clientAt], when present, hold
      lists of strings;
    - [fetch_data] is a program over the operations it performs
      ([shutdown_flag.is_set()], [requests.post], [time.sleep], [logging]);
      the program is run either alone against an environment, or as a
      worker of the thread pool of [main];
    - one [requests.post(...)], [raise_for_status()] and [json()] give a
      parsed body (the array of the contract, or [None] for the JSON value
      [null]), a [RequestException], or another exception (which
      [fetch_data] does not catch);
    - the configuration, the progress bar's display and the reading and
      writing of files are left out; [api_url], [headers], [params] and
      [pbar], which [fetch_data] only passes on, are not arguments here. *)

From Stdlib Require Import Ascii String.
From stdpp Require Import base numbers list gmap sets.

Set Default Proof Using "Type".

(** ** Python strings *)

Module PyStr.

Definition char := N.
Definition str := list char.

Definition ord (a : ascii) : char := N_of_ascii a.

(** An ASCII literal of the source. *)
Fixpoint py (s : string) : str :=
  match s with
  | EmptyString => []
  | String a s' => ord a :: py s'
  end.

(** [s.startswith(p)] *)
Fixpoint startswith (p s : str) : bool :=
  match p, s with
  | [], _ => true
  | _ :: _, [] => false
  | a :: p', b :: s' => (a =? b)%N && startswith p' s'
  end.

(** [s.endswith(p)] *)
Definition endswith (p s : str) : bool := startswith (rev p) (rev s).

(** [s[n:]] for [0 <= n] *)
Definition slice_from (n : nat) (s : str) : str := drop n s.

(** [s[:-1]] *)
Definition slice_drop_last (s : str) : str := take (length s - 1) s.

(** The line feed, which [$] treats specially. *)
Definition LF : char := 10%N.

End PyStr.
Export PyStr.

(** ** Domain cleaning (lines 44-50) *)

Definition clean_domain (domain : str) : str :=
  let domain :=
    if startswith (py "www.") domain then slice_from 4 domain else domain in
  let domain :=
    if endswith (py ".") domain then slice_drop_last domain else domain in
  domain.

(** ** Regular expressions, as far as [is_valid_domain] needs them *)

Module Regex.

Inductive regex : Type :=
  | Void
  | Eps
  | Class (p : char → bool)
  | Cat (r1 r2 : regex)
  | Alt (r1 r2 : regex)
  | Star (r : regex).

(** [r+] *)
Definition Plus (r : regex) : regex := Cat r (Star r).

(** [r{n}] and [r{0,n}], and from them [r{m,n}] *)
Fixpoint exactly (r : regex) (n : nat) : regex :=
  match n with
  | O => Eps
  | S n' => Cat r (exactly r n')
  end.

Fixpoint upto (r : regex) (n : nat) : regex :=
  match n with
  | O => Eps
  | S n' => Alt Eps (Cat r (upto r n'))
  end.

Definition Rep (r : regex) (m n : nat) : regex :=
  Cat (exactly r m) (upto r (n - m)).

Fixpoint nullable (r : regex) : bool :=
  match r with
  | Void => false
  | Eps => true
  | Class _ => false
  | Cat r1 r2 => nullable r1 && nullable r2
  | Alt r1 r2 => nullable r1 || nullable r2
  | Star _ => true
  end.

Fixpoint deriv (c : char) (r : regex) : regex :=
  match r with
  | Void => Void
  | Eps => Void
  | Class p => if p c then Eps else Void
  | Cat r1 r2 =>
      if nullable r1
      then Alt (Cat (deriv c r1) r2) (deriv c r2)
      else Cat (deriv c r1) r2
  | Alt r1 r2 => Alt (deriv c r1) (deriv c r2)
  | Star r1 => Cat (deriv c r1) (Star r1)
  end.

(** Does [r] match the whole of [s]? *)
Fixpoint fullmatch (r : regex) (s : str) : bool :=
  match s with
  | [] => nullable r
  | c :: s' => fullmatch (deriv c r) s'
  end.

(** The words of [r]. *)
Inductive lang : regex → str → Prop :=
  | lang_eps : lang Eps []
  | lang_class p c : p c = true → lang (Class p) [c]
  | lang_cat r1 r2 s1 s2 : lang r1 s1 → lang r2 s2 → lang (Cat r1 r2) (s1 ++ s2)
  | lang_alt_l r1 r2 s : lang r1 s → lang (Alt r1 r2) s
  | lang_alt_r r1 r2 s : lang r2 s → lang (Alt r1 r2) s
  | lang_star_nil r : lang (Star r) []
  | lang_star_cons r s1 s2 :
      lang r s1 → lang (Star r) s2 → lang (Star r) (s1 ++ s2).

End Regex.
Export Regex.

(** ** Domain validation (lines 55-64)

    The pattern is [^(?!:\/\/)([a-zA-Z0-9-_]+\.)+[a-zA-Z]{2,15}$], compiled
    with [re.IGNORECASE] and used with [re.match]. *)

Definition in_range (lo hi : ascii) (c : char) : bool :=
  (ord lo <=? c)%N && (c <=? ord hi)%N.

(** Under [re.IGNORECASE] a [str] pattern's [a-z] and [A-Z] match the 52
    ASCII letters and the four code points whose case mapping is an ASCII
    letter: U+0130, U+0131, U+017F and U+212A. *)
Definition ignorecase_extra (c : char) : bool :=
  (c =? 304)%N || (c =? 305)%N || (c =? 383)%N || (c =? 8490)%N.

(** [[a-zA-Z]] *)
Definition cls_alpha (c : char) : bool :=
  in_range "a" "z" c || in_range "A" "Z" c || ignorecase_extra c.

(** [[a-zA-Z0-9-_]]: three ranges and the two literals [-] and [_] *)
Definition cls_label (c : char) : bool :=
  in_range "a" "z" c || in_range "A" "Z" c || in_range "0" "9" c
  || (c =? ord "-")%N || (c =? ord "_")%N || ignorecase_extra c.

(** [\.] *)
Definition cls_dot (c : char) : bool := (c =? ord ".")%N.

(** [([a-zA-Z0-9-_]+\.)+[a-zA-Z]{2,15}] *)
Definition domain_body : regex :=
  Cat (Plus (Cat (Plus (Class cls_label)) (Class cls_dot)))
      (Rep (Class cls_alpha) 2 15).

(** [(?!:\/\/)] at the start of the subject *)
Definition lookahead_not_scheme (s : str) : bool :=
  negb (startswith (py "://") s).

(** [r$] anchored at the start: without [re.MULTILINE], [$] matches at the
    end of the subject and also just before a line feed that ends it. *)
Definition match_to_dollar (r : regex) (s : str) : bool :=
  fullmatch r s
  || (endswith [LF] s && fullmatch r (slice_drop_last s)).

Definition is_valid_domain (domain : str) : bool :=
  lookahead_not_scheme domain && match_to_dollar domain_body domain.

(** The text after the last dot of a domain, [domain.rsplit('.', 1)[-1]]:
    the final label that the specification bounds. *)
Fixpoint final_label (s : str) : str :=
  match s with
  | [] => []
  | c :: s' =>
      if cls_dot c || existsb cls_dot s' then final_label s' else c :: s'
  end.

(** ** Loading the input (lines 99-107) *)

(** An element of [original_domains], as [json.load] returns it. *)
Inductive json_entry : Type :=
  | JString (s : str)
  | JNonString (repr : string).

Inductive exn : Type := Exn (msg : string).

(** The lines written to [script.log] that the modelled code emits. *)
Inductive log_record : Type :=
  | WarnNonString (repr : string)
  | WarnAttemptFailed (batch_no attempt_no : nat) (e : exn)
  | ErrorAllFailed (batch_no : nat) (e : exn)
  | InfoInterrupted.

(** The loop of lines 100-105, as a fold over [original_domains] that
    carries [cleaned_domains] and the log. *)
Definition clean_step (acc : list str * list log_record) (domain : json_entry)
  : list str * list log_record :=
  match domain with
  | JString s => (acc.1 ++ [clean_domain s], acc.2)
  | JNonString repr => (acc.1, acc.2 ++ [WarnNonString repr])
  end.

Definition clean_loop (original_domains : list json_entry)
  : list str * list log_record :=
  fold_left clean_step original_domains ([], []).

Definition cleaned_domains (original_domains : list json_entry) : list str :=
  (clean_loop original_domains).1.

(** [set(filter(is_valid_domain, cleaned_domains))] *)
Definition input_domains (original_domains : list json_entry) : gset str :=
  list_to_set (filter (λ d, is_valid_domain d = true)
                      (cleaned_domains original_domains)).

(** What one element of [original_domains] adds to [cleaned_domains]. *)
Definition cleaned_entry (e : json_entry) : option str :=
  match e with
  | JString s => Some (clean_domain s)
  | JNonString _ => None
  end.

(** The input of the deduplication example of the specification. *)
Definition dedup_example : list json_entry :=
  [JString (py "a.com"); JString (py "www.a.com"); JString (py "A.COM")].

(** ** Batching (line 171) *)

(** [range(start, stop, step)] for a positive [step]; [fuel] bounds the
    number of elements, and [stop - start] is always enough. *)
Fixpoint py_range_aux (fuel i stop step : nat) : list nat :=
  match fuel with
  | O => []
  | S fuel' =>
      if i <? stop then i :: py_range_aux fuel' (i + step) stop step else []
  end.

Definition py_range (start stop step : nat) : list nat :=
  py_range_aux (stop - start) start stop step.

(** [l[i:j]] for [0 <= i <= j]; Python clamps both ends to [len(l)]. *)
Definition slice {A} (l : list A) (i j : nat) : list A :=
  take (j - i) (drop i l).

Definition make_batches (size_ : nat) (domains : list str) : list (list str) :=
  map (λ i, slice domains i (i + size_)) (py_range 0 (length domains) size_).

(** [[list(input_domains)[i:i + 50] for i in range(0, len(input_domains), 50)]] *)
Definition batches (input_domains : gset str) : list (list str) :=
  map (λ i, slice (elements input_domains) i (i + 50))
      (py_range 0 (size input_domains) 50).

(** ** Aggregation (lines 188-199) *)

(** One object of the response array: each key is absent or holds a list. *)
Record item : Type := Item {
  employeeAt : option (list str);
  clientAt : option (list str)
}.

Definition data := list item.

(** [key in item and item[key]] *)
Definition present_and_truthy (field : option (list str)) : bool :=
  match field with
  | Some (_ :: _) => true
  | _ => false
  end.

(** [item[key]], read only after [present_and_truthy]. *)
Definition getitem (field : option (list str)) : list str := default [] field.

(** [results.update(d for d in l if d in input_domains)] *)
Definition update_filtered (input_domains results : gset str) (l : list str)
  : gset str :=
  fold_left (λ acc d, if decide (d ∈ input_domains) then acc ∪ {[d]} else acc)
            l results.

Definition absorb_item (input_domains results : gset str) (it : item)
  : gset str :=
  if present_and_truthy (employeeAt it)
  then update_filtered input_domains results (getitem (employeeAt it))
  else if present_and_truthy (clientAt it)
  then update_filtered input_domains results (getitem (clientAt it))
  else results.

(** [if data: for item in data: ...]; both [None] and [[]] are falsy. *)
Definition absorb (input_domains results : gset str) (d : option data)
  : gset str :=
  match d with
  | Some ((_ :: _) as items) => fold_left (absorb_item input_domains) items results
  | _ => results
  end.

(** The selection rule of the aggregator in the words of the specification,
    to compare [absorb] with. *)
Definition selected_list (it : item) : list str :=
  match employeeAt it with
  | Some (d :: l) => d :: l
  | _ =>
      match clientAt it with
      | Some (d :: l) => d :: l
      | _ => []
      end
  end.

(** ** Programs over the operations of a worker *)

(** What one [requests.post(...)], [raise_for_status()] and [json()] give.
    [NullResponse] is a response whose body is the JSON value [null], for
    which [response.json()] is [None]. *)
Inductive attempt_result : Type :=
  | Response (body : data)
  | NullResponse
  | RequestException (e : exn)
  | OtherException (e : exn).

Inductive prog (R : Type) : Type :=
  | Return (r : R)
  | Raise (e : exn)
  | IsSet (k : bool → prog R)
  | Post (payload : list str) (k : attempt_result → prog R)
  | Sleep (secs : nat) (k : prog R)
  | Log (m : log_record) (k : prog R).
Arguments Return {R} r.
Arguments Raise {R} e.
Arguments IsSet {R} k.
Arguments Post {R} payload k.
Arguments Sleep {R} secs k.
Arguments Log {R} m k.

(** ** The retrying fetcher (lines 132-164) *)

(** The body of [for attempt in range(5)], with [todo] iterations left. *)
Fixpoint attempts (todo attempt : nat) (batch : list str) (index : nat)
  : prog (option data) :=
  match todo with
  | O => Return None
  | S todo' =>
      IsSet (λ set,
        if set then Return None
        else Post batch (λ r,
          match r with
          | Response body => Return (Some body)
          | NullResponse => Return None
          | RequestException e =>
              Log (WarnAttemptFailed (index + 1) (attempt + 1) e)
                (if attempt =? 4
                 then Log (ErrorAllFailed (index + 1) e) (Return None)
                 else Sleep (2 ^ attempt * 2)
                        (attempts todo' (S attempt) batch index))
          | OtherException e => Raise e
          end))
  end.

Definition fetch_data (batch : list str) (index : nat) : prog (option data) :=
  IsSet (λ set, if set then Return None else attempts 5 0 batch index).

(** ** Running one program against an environment *)

Inductive event : Type :=
  | EIsSet (b : bool)
  | EPost (payload : list str) (r : attempt_result)
  | ESleep (secs : nat)
  | ELog (m : log_record).

Inductive outcome (R : Type) : Type :=
  | Returned (r : R)
  | Raised (e : exn).
Arguments Returned {R} r.
Arguments Raised {R} e.

(** The environment answers the n-th read of the flag and the n-th post. *)
Record env : Type := Env {
  flag_read : nat → bool;
  response : nat → attempt_result
}.

Fixpoint exec {R} (w : env) (reads posts : nat) (p : prog R)
  : outcome R * list event :=
  match p with
  | Return r => (Returned r, [])
  | Raise e => (Raised e, [])
  | IsSet k =>
      let b := flag_read w reads in
      let '(o, t) := exec w (S reads) posts (k b) in (o, EIsSet b :: t)
  | Post payload k =>
      let r := response w posts in
      let '(o, t) := exec w reads (S posts) (k r) in (o, EPost payload r :: t)
  | Sleep secs k =>
      let '(o, t) := exec w reads posts k in (o, ESleep secs :: t)
  | Log m k =>
      let '(o, t) := exec w reads posts k in (o, ELog m :: t)
  end.

Definition run_fetch (w : env) (batch : list str) (index : nat)
  : outcome (option data) * list event :=
  exec w 0 0 (fetch_data batch index).

Definition posts_of (t : list event) : list (list str) :=
  omap (λ e, match e with EPost payload _ => Some payload | _ => None end) t.

Definition sleeps_of (t : list event) : list nat :=
  omap (λ e, match e with ESleep secs => Some secs | _ => None end) t.

(** The three ways a call of [fetch_data] ends, read off its trace: the
    last thing it did was to see the flag set (lines 135, 139), to receive
    a response (line 150), or to log the exhaustion (lines 159-163). *)
Inductive terminal_case : Type := Succeeded | Failed | Cancelled | Faulted.

Definition terminal_of (t : list event) : terminal_case :=
  match last t with
  | Some (EIsSet true) => Cancelled
  | Some (EPost _ (Response _)) => Succeeded
  | Some (EPost _ NullResponse) => Succeeded
  | Some (ELog (ErrorAllFailed _ _)) => Failed
  | _ => Faulted
  end.

(** What a clock and the network see of a trace: the attempts and the
    sleeps, in the order in which they happen. *)
Inductive tick : Type :=
  | Attempt
  | Wait (secs : nat).

#[global] Instance tick_eq_dec : EqDecision tick.
Proof. solve_decision. Defined.

Definition timeline (t : list event) : list tick :=
  omap (λ e, match e with
             | EPost _ _ => Some Attempt
             | ESleep secs => Some (Wait secs)
             | _ => None
             end) t.

(** The longest timeline of [attempts todo attempt]: every attempt fails. *)
Fixpoint full_timeline (todo attempt : nat) : list tick :=
  match todo with
  | O => []
  | S todo' =>
      Attempt :: (if attempt =? 4 then []
                  else Wait (2 ^ attempt * 2) :: full_timeline todo' (S attempt))
  end.

(** Environments for the retry scenarios: the flag is never seen set, and
    the responses are the listed ones, then [rest]. *)
Definition never_set : nat → bool := λ _, false.

Definition responses (l : list attempt_result) (rest : attempt_result)
  : nat → attempt_result :=
  λ n, default rest (l !! n).

Definition fails_4_then_succeeds (e0 e1 e2 e3 : exn) (body : data)
    (rest : attempt_result) : env :=
  Env never_set
      (responses [RequestException e0; RequestException e1;
                  RequestException e2; RequestException e3; Response body]
                 rest).

Definition always_fails (e : nat → exn) : env :=
  Env never_set (λ n, RequestException (e n)).

Definition set_from_the_start (r : nat → attempt_result) : env :=
  Env (λ _, true) r.

(** The flag is never seen set and every response has the body [null]. *)
Definition answers_null : env := Env never_set (λ _, NullResponse).

(** Five attempts with sleeps of 2, 4, 8 and 16 seconds between them. *)
Definition backoff_timeline : list tick :=
  [Attempt; Wait 2; Attempt; Wait 4; Attempt; Wait 8; Attempt; Wait 16;
   Attempt].

(** ** The dispatch loop of [main] (lines 174-207)

    The pool threads, the signal handler and the main thread interleave.
    A state holds what they share; an action is one atomic move of one of
    them, and a schedule is a list of actions. *)

Module Pool.

(** A future of the executor: its work item waits in the queue, or a pool
    thread runs it; it is done once the program is a [Return] or a [Raise]. *)
Inductive future : Type :=
  | Queued (work : prog (option data))
  | Running (p : prog (option data)).

Definition done (f : future) : option (outcome (option data)) :=
  match f with
  | Running (Return r) => Some (Returned r)
  | Running (Raise e) => Some (Raised e)
  | _ => None
  end.

Definition active (f : future) : bool :=
  match f with
  | Queued _ => false
  | Running (Return _) | Running (Raise _) => false
  | Running _ => true
  end.

Definition is_queued (f : future) : bool :=
  match f with Queued _ => true | Running _ => false end.

(** Where the main thread is: in the [for future in as_completed(futures)]
    loop, past it through [break], past it because every future was
    yielded, or unwinding with the exception that [future.result()]
    re-raised. SIGINT has a handler (line 39), so it sets the flag and
    raises no [KeyboardInterrupt]. *)
Inductive loop_status : Type :=
  | InLoop
  | Broken
  | Exhausted
  | Unwinding (e : exn).

Record state : Type := State {
  input : gset str;
  shutdown_flag : bool;
  futures : list future;
  yielded : list nat;
  loop : loop_status;
  results : gset str;
  pbar : nat;
  trace : list (nat * event);
  log : list log_record
}.

Definition max_workers : nat := 4.

Inductive action : Type :=
  | Sigint
  | Start
  | Work (i : nat) (r : attempt_result)
  | Collect (i : nat)
  | EndLoop.

(** [executor.submit(fetch_data, batch, i, ...)] for [i, batch] in
    [enumerate(batches)] *)
Definition submit_all (bs : list (list str)) : list future :=
  imap (λ i batch, Queued (fetch_data batch i)) bs.

(** The state in which the loop is entered, for any list of batches:
    [results = set()] and every batch submitted. *)
Definition dispatch (input_domains : gset str) (bs : list (list str))
    (flag : bool) : state :=
  {| input := input_domains;
     shutdown_flag := flag;
     futures := submit_all bs;
     yielded := [];
     loop := InLoop;
     results := ∅;
     pbar := 0;
     trace := [];
     log := [] |}.

(** [main] dispatches the batches of line 171. *)
Definition init (input_domains : gset str) (flag : bool) : state :=
  dispatch input_domains (batches input_domains) flag.

Definition set_futures (s : state) (fs : list future) : state :=
  {| input := input s; shutdown_flag := shutdown_flag s; futures := fs;
     yielded := yielded s; loop := loop s; results := results s;
     pbar := pbar s; trace := trace s; log := log s |}.

Definition add_event (s : state) (i : nat) (e : event) : state :=
  {| input := input s; shutdown_flag := shutdown_flag s;
     futures := futures s; yielded := yielded s; loop := loop s;
     results := results s; pbar := pbar s;
     trace := trace s ++ [(i, e)]; log := log s |}.

(** The first work item of the queue, which is in submission order. *)
Fixpoint first_queued (fs : list future) (i : nat) : option nat :=
  match fs with
  | [] => None
  | f :: fs' => if is_queued f then Some i else first_queued fs' (S i)
  end.

Definition count_active (fs : list future) : nat :=
  length (filter (λ f, active f = true) fs).

(** One operation of the program a pool thread runs. *)
Definition work_step (s : state) (i : nat) (r : attempt_result)
  : option state :=
  match futures s !! i with
  | Some (Running (IsSet k)) =>
      let b := shutdown_flag s in
      Some (add_event (set_futures s (<[i := Running (k b)]> (futures s)))
                      i (EIsSet b))
  | Some (Running (Post payload k)) =>
      Some (add_event (set_futures s (<[i := Running (k r)]> (futures s)))
                      i (EPost payload r))
  | Some (Running (Sleep secs k)) =>
      Some (add_event (set_futures s (<[i := Running k]> (futures s)))
                      i (ESleep secs))
  | Some (Running (Log m k)) =>
      Some (add_event (set_futures s (<[i := Running k]> (futures s)))
                      i (ELog m))
  | _ => None
  end.

(** One iteration of the loop body (lines 186-200) on the future that
    [as_completed] yields. *)
Definition collect_step (s : state) (i : nat) : option state :=
  match loop s, futures s !! i ≫= done with
  | InLoop, Some o =>
      if decide (i ∈ yielded s) then None
      else if shutdown_flag s then
        Some {| input := input s; shutdown_flag := shutdown_flag s;
                futures := futures s; yielded := yielded s ++ [i];
                loop := Broken; results := results s; pbar := pbar s;
                trace := trace s; log := log s |}
      else
        match o with
        | Returned d =>
            Some {| input := input s; shutdown_flag := shutdown_flag s;
                    futures := futures s; yielded := yielded s ++ [i];
                    loop := InLoop;
                    results := absorb (input s) (results s) d;
                    pbar := pbar s + 1;
                    trace := trace s; log := log s |}
        | Raised e =>
            Some {| input := input s; shutdown_flag := shutdown_flag s;
                    futures := futures s; yielded := yielded s ++ [i];
                    loop := Unwinding e; results := results s;
                    pbar := pbar s; trace := trace s; log := log s |}
        end
  | _, _ => None
  end.

Definition step (a : action) (s : state) : option state :=
  match a with
  | Sigint =>
      Some {| input := input s; shutdown_flag := true; futures := futures s;
              yielded := yielded s; loop := loop s; results := results s;
              pbar := pbar s; trace := trace s;
              log := log s ++ [InfoInterrupted] |}
  | Start =>
      if count_active (futures s) <? max_workers then
        match first_queued (futures s) 0 with
        | Some i =>
            match futures s !! i with
            | Some (Queued work) =>
                Some (set_futures s (<[i := Running work]> (futures s)))
            | _ => None
            end
        | None => None
        end
      else None
  | Work i r => work_step s i r
  | Collect i => collect_step s i
  | EndLoop =>
      match loop s with
      | InLoop =>
          if decide (length (yielded s) = length (futures s)) then
            Some {| input := input s; shutdown_flag := shutdown_flag s;
                    futures := futures s; yielded := yielded s;
                    loop := Exhausted; results := results s; pbar := pbar s;
                    trace := trace s; log := log s |}
          else None
      | _ => None
      end
  end.

(** A schedule runs action by action; an action that is not enabled leaves
    the state as it is. *)
Definition step_or_stay (s : state) (a : action) : state :=
  default s (step a s).

Definition run (sched : list action) (s : state) : state :=
  fold_left step_or_stay sched s.

(** [main] leaves the [with ThreadPoolExecutor] block, whose exit joins the
    pool threads, when the loop is over and every future is done; it then
    writes [results], unless it is unwinding. *)
Definition all_done (s : state) : bool :=
  forallb (λ f, bool_decide (is_Some (done f))) (futures s).

Definition written (s : state) : option (gset str) :=
  match loop s with
  | Broken | Exhausted => if all_done s then Some (results s) else None
  | _ => None
  end.

Definition network_calls (s : state) : list (list str) :=
  posts_of (trace s).*2.

(** A future of a run whose flag was set before any work item started: it
    is still queued, or it has not read the flag yet, or it has returned
    [None]. *)
Definition unstarted (f : future) : Prop :=
  (∃ b i, f = Queued (fetch_data b i))
  ∨ (∃ b i, f = Running (fetch_data b i))
  ∨ f = Running (Return None).

Definition cancelled_inv (s : state) : Prop :=
  shutdown_flag s = true ∧ results s = ∅ ∧ network_calls s = []
  ∧ Forall unstarted (futures s).

(** A schedule that lets every work item of [n] run to its end, one after
    the other, and then lets the main thread take one turn. *)
Definition drain (from n : nat) : list action :=
  flat_map (λ i, [Start; Work i (Response [])]) (seq from n).

Definition drain_and_collect (n : nat) : list action :=
  drain 0 n ++ [Collect 0; EndLoop].

(** A state in which the flag is set and the one future holds a response
    that lists a domain of the validated set. *)
Definition late_success : state :=
  {| input := {[ py "a.com" ]};
     shutdown_flag := true;
     futures := [Running (Return (Some [Item (Some [py "a.com"]) None]))];
     yielded := [];
     loop := InLoop;
     results := ∅;
     pbar := 0;
     trace := [];
     log := [] |}.

End Pool.

(** * Further definitions *)

(** ** The shape of a valid domain *)

(** Labels written one after the other, each followed by a dot. *)
Definition join_labels (labels : list str) : str :=
  concat (map (λ l, l ++ [ord "."]) labels).

(** One or more non-empty labels over [[a-zA-Z0-9-_]] and a final label of 2
    to 15 letters. *)
Definition well_formed (labels : list str) (tld : str) : Prop :=
  labels ≠ []
  ∧ Forall (λ l, l ≠ [] ∧ Forall (λ c, cls_label c = true) l) labels
  ∧ Forall (λ c, cls_alpha c = true) tld
  ∧ 2 ≤ length tld ≤ 15.

(** ** What a trace holds *)

Definition logs_of (t : list event) : list log_record :=
  omap (λ e, match e with ELog m => Some m | _ => None end) t.

(** The exceptions of the attempts that failed with a [RequestException]. *)
Definition failures_of (t : list event) : list exn :=
  omap (λ e, match e with
             | EPost _ (RequestException x) => Some x
             | _ => None
             end) t.

(** The log lines of lines 153-162 for the failures [fails] of batch
    [index]: a warning per failure, numbered from 1, and the error after
    the fifth. *)
Definition expected_log (index : nat) (fails : list exn) : list log_record :=
  imap (λ k x, WarnAttemptFailed (index + 1) (k + 1) x) fails
  ++ match fails with
     | [_; _; _; _; x] => [ErrorAllFailed (index + 1) x]
     | _ => []
     end.

(** The order of the operations of one call: a post comes right after a
    read of the flag that found it unset, a read that finds it set is the
    last operation, and a sleep is followed by a read of the flag. [prev]
    is the operation before [t]. *)
Fixpoint guarded (prev : option event) (t : list event) : bool :=
  match t with
  | [] => match prev with Some (ESleep _) => false | _ => true end
  | e :: t' =>
      match prev, e with
      | Some (EIsSet true), _ => false
      | Some (ESleep _), EIsSet _ => guarded (Some e) t'
      | Some (ESleep _), _ => false
      | Some (EIsSet false), EPost _ _ => guarded (Some e) t'
      | _, EPost _ _ => false
      | _, _ => guarded (Some e) t'
      end
  end.

(** ** Writing the results (lines 209-214) *)

(** [for domain in results: f.write(domain + '\n')] *)
Definition write_lines (domains : list str) : str :=
  concat (map (λ domain, domain ++ [LF]) domains).

Definition results_file (results : gset str) : str :=
  write_lines (elements results).

(** ** Invariants of the dispatch loop *)

(** Every post of the program carries the batch [b]. *)
Inductive posts_only (b : list str) : prog (option data) → Prop :=
  | posts_only_return r : posts_only b (Return r)
  | posts_only_raise e : posts_only b (Raise e)
  | posts_only_isset k : (∀ x, posts_only b (k x)) → posts_only b (IsSet k)
  | posts_only_post k : (∀ r, posts_only b (k r)) → posts_only b (Post b k)
  | posts_only_sleep secs k : posts_only b k → posts_only b (Sleep secs k)
  | posts_only_log m k : posts_only b k → posts_only b (Log m k).

Module PoolInv.
Import Pool.

Definition prog_of (f : future) : prog (option data) :=
  match f with Queued work => work | Running p => p end.

(** [d] is listed, under the selected relation, by a record of the response
    of a future that the loop has been given. *)
Definition absorbed (s : state) (d : str) : Prop :=
  ∃ i body it,
    i ∈ yielded s
    ∧ futures s !! i = Some (Running (Return (Some body)))
    ∧ it ∈ body ∧ d ∈ selected_list it.

(** What holds in every state of a run that dispatched the batches [bs] for
    the validated set [V]. *)
Record loop_inv (V : gset str) (bs : list (list str)) (s : state) : Prop := {
  inv_input : input s = V;
  inv_length : length (futures s) = length bs;
  inv_progs : ∀ i f, futures s !! i = Some f →
                ∃ b, bs !! i = Some b ∧ posts_only b (prog_of f);
  inv_trace : ∀ i payload r, (i, EPost payload r) ∈ trace s →
                bs !! i = Some payload;
  inv_nodup : NoDup (yielded s);
  inv_yielded : ∀ i, i ∈ yielded s → is_Some (futures s !! i ≫= done);
  inv_pbar_le : pbar s ≤ length (yielded s);
  inv_pbar : loop s = InLoop ∨ loop s = Exhausted →
             pbar s = length (yielded s);
  inv_exhausted : loop s = Exhausted →
                  length (yielded s) = length (futures s);
  inv_results : loop s = InLoop ∨ loop s = Exhausted →
                ∀ d, d ∈ results s ↔ d ∈ V ∧ absorbed s d;
  inv_active : count_active (futures s) ≤ max_workers;
  inv_fifo : ∀ i j f g, i < j → futures s !! i = Some f →
               futures s !! j = Some g →
               is_queued f = true → is_queued g = true
}.

(** A state in which the flag is unset and the one future has raised an
    exception that [fetch_data] does not catch. *)
Definition faulted_future : state :=
  {| input := {[ py "a.com" ]};
     shutdown_flag := false;
     futures := [Running (Raise (Exn "TypeError"))];
     yielded := [];
     loop := InLoop;
     results := ∅;
     pbar := 0;
     trace := [];
     log := [] |}.

(** A schedule on which every work item runs alone and its first attempt is
    answered by [resp]: the thread starts, reads the flag on entry and at
    the top of the loop, and posts. *)
Definition serve (resp : nat → data) (from n : nat) : list action :=
  flat_map (λ i, [Start; Work i (Response []); Work i (Response []);
                  Work i (Response (resp i))])
           (seq from n).

(** The main thread is given the futures 0 to [n - 1] in this order and
    leaves the loop. *)
Definition collect_all (n : nat) : list action :=
  (Collect <$> seq 0 n) ++ [EndLoop].

(** The futures [from] to [from + n - 1] when each has returned the
    response [resp] gives it. *)
Definition served (resp : nat → data) (from n : nat) : list future :=
  (λ i, Running (Return (Some (resp i)))) <$> seq from n.

End PoolInv.

(** * Properties *)

(** ** Strings *)

Section strings.
Implicit Types p s t : str.

Lemma startswith_spec p s : startswith p s = true ↔ ∃ t, s = p ++ t.
Proof.
  revert s. induction p as [|a p IH]; intros s; simpl.
  - split; [eauto | done].
  - destruct s as [|b s]; simpl.
    + split; [done | intros [t Ht]; discriminate].
    + rewrite andb_true_iff, N.eqb_eq, IH. split.
      * intros [-> [t ->]]. eauto.
      * intros [t Ht]. injection Ht as -> ->. eauto.
Qed.

Lemma endswith_spec p s : endswith p s = true ↔ ∃ t, s = t ++ p.
Proof.
  unfold endswith. rewrite startswith_spec. split.
  - intros [t Ht]. exists (rev t).
    rewrite <- (rev_involutive s), Ht, rev_app_distr.
    by rewrite rev_involutive.
  - intros [t ->]. exists (rev t). by rewrite rev_app_distr.
Qed.

Lemma slice_drop_last_app s c : slice_drop_last (s ++ [c]) = s.
Proof.
  unfold slice_drop_last. rewrite length_app. simpl.
  replace (length s + 1 - 1) with (length s) by lia.
  by rewrite take_app_length.
Qed.

Lemma endswith_false_app s c d :
  c ≠ d → endswith [d] (s ++ [c]) = false.
Proof.
  intros Hne. apply not_true_is_false. rewrite endswith_spec.
  intros [t Ht]. apply app_inj_tail in Ht as [_ ?]. congruence.
Qed.
End strings.

(** ** The normalizer *)

Lemma clean_domain_length d : length (clean_domain d) ≤ length d.
Proof.
  unfold clean_domain, slice_from, slice_drop_last.
  destruct (startswith _ d); destruct (endswith _ _);
    rewrite ?length_take, ?length_drop; lia.
Qed.

Lemma clean_domain_shrinks d :
  startswith (py "www.") d = true ∨ endswith (py ".") d = true →
  length (clean_domain d) < length d.
Proof.
  unfold clean_domain, slice_from, slice_drop_last.
  destruct (startswith (py "www.") d) eqn:Hw.
  - intros _. apply startswith_spec in Hw as [t Ht].
    apply (f_equal length) in Ht. rewrite length_app in Ht.
    change (length (py "www.")) with 4 in Ht.
    destruct (endswith _ _); rewrite ?length_take, ?length_drop; lia.
  - intros [?|Hd]; [done|]. rewrite Hd.
    apply endswith_spec in Hd as [t Ht].
    apply (f_equal length) in Ht. rewrite length_app in Ht.
    change (length (py ".")) with 1 in Ht.
    rewrite length_take. lia.
Qed.

(** [clean_domain] leaves a string as it is exactly when there is nothing
    for it to strip. *)
Lemma clean_domain_fixed d :
  clean_domain d = d
  ↔ startswith (py "www.") d = false ∧ endswith (py ".") d = false.
Proof.
  split.
  - intros Hfix. apply (f_equal length) in Hfix.
    pose proof (clean_domain_shrinks d) as Hlt.
    destruct (startswith (py "www.") d); [lia|].
    destruct (endswith (py ".") d); [lia|]. done.
  - intros [Hw Hd]. unfold clean_domain. by rewrite Hw, Hd.
Qed.

(** ** Regular expressions: the matcher decides the language *)

Section regex.
Implicit Types r : regex.
Implicit Types s : str.

Lemma lang_void_inv s : lang Void s → False.
Proof. inversion 1. Qed.

Lemma lang_eps_inv s : lang Eps s → s = [].
Proof. by inversion 1. Qed.

Lemma lang_class_inv p s : lang (Class p) s → ∃ c, s = [c] ∧ p c = true.
Proof. inversion 1; subst; eauto. Qed.

Lemma lang_cat_inv r1 r2 s :
  lang (Cat r1 r2) s → ∃ s1 s2, s = s1 ++ s2 ∧ lang r1 s1 ∧ lang r2 s2.
Proof. inversion 1; subst; eauto. Qed.

Lemma lang_alt_inv r1 r2 s : lang (Alt r1 r2) s → lang r1 s ∨ lang r2 s.
Proof. inversion 1; subst; auto. Qed.

Lemma lang_star_inv r s :
  lang (Star r) s →
  s = [] ∨ ∃ c s1 s2, s = (c :: s1) ++ s2 ∧ lang r (c :: s1) ∧ lang (Star r) s2.
Proof.
  intros H. remember (Star r) as r' eqn:Hr.
  induction H as [| | | | | |r0 s1 s2 H1 _ H2 IH2]; try discriminate.
  - by left.
  - injection Hr as ->. destruct s1 as [|c s1].
    + simpl. by apply IH2.
    + right. by exists c, s1, s2.
Qed.

Lemma nullable_spec r : nullable r = true ↔ lang r [].
Proof.
  induction r as [| |p|r1 IH1 r2 IH2|r1 IH1 r2 IH2|r IH]; simpl.
  - split; [done | by intros ?%lang_void_inv].
  - split; [constructor | done].
  - split; [done | by intros (c & ? & _)%lang_class_inv].
  - rewrite andb_true_iff, IH1, IH2. split.
    + intros [H1 H2]. apply (lang_cat _ _ [] []); done.
    + intros (s1 & s2 & Heq & H1 & H2)%lang_cat_inv.
      symmetry in Heq. apply app_eq_nil in Heq as [-> ->]. done.
  - rewrite orb_true_iff, IH1, IH2. split.
    + intros [?|?]; [by apply lang_alt_l | by apply lang_alt_r].
    + apply lang_alt_inv.
  - split; [constructor | done].
Qed.

Lemma deriv_spec r c s : lang (deriv c r) s ↔ lang r (c :: s).
Proof.
  revert s.
  induction r as [| |p|r1 IH1 r2 IH2|r1 IH1 r2 IH2|r IH]; intros s; simpl.
  - split; by intros ?%lang_void_inv.
  - split; [by intros ?%lang_void_inv | by intros ?%lang_eps_inv].
  - destruct (p c) eqn:Hp.
    + split.
      * intros ->%lang_eps_inv. by constructor.
      * intros (c' & [= -> ->] & _)%lang_class_inv. constructor.
    + split; [by intros ?%lang_void_inv|].
      intros (c' & [= -> ->] & ?)%lang_class_inv. congruence.
  - assert (Hcat : lang (Cat (deriv c r1) r2) s →
                   lang (Cat r1 r2) (c :: s)).
    { intros (s1 & s2 & -> & H1 & H2)%lang_cat_inv.
      apply IH1 in H1. by apply (lang_cat _ _ (c :: s1) s2). }
    assert (Hinv : lang (Cat r1 r2) (c :: s) →
              lang (Cat (deriv c r1) r2) s
              ∨ (lang r1 [] ∧ lang r2 (c :: s))).
    { intros (s1 & s2 & Heq & H1 & H2)%lang_cat_inv.
      destruct s1 as [|c' s1]; simpl in Heq.
      - right. by subst.
      - injection Heq as -> ->. left.
        apply lang_cat; [by apply IH1 | done]. }
    destruct (nullable r1) eqn:Hn.
    + split.
      * intros [H|H]%lang_alt_inv; [by apply Hcat|].
        apply (lang_cat _ _ [] (c :: s)); [by apply nullable_spec|].
        by apply IH2.
      * intros H. apply Hinv in H as [H|[_ H]].
        -- by apply lang_alt_l.
        -- apply lang_alt_r. by apply IH2.
    + split; [done|].
      intros H. apply Hinv in H as [H|[H _]]; [done|].
      apply nullable_spec in H. congruence.
  - split.
    + intros [H|H]%lang_alt_inv.
      * apply lang_alt_l. by apply IH1.
      * apply lang_alt_r. by apply IH2.
    + intros [H|H]%lang_alt_inv.
      * apply lang_alt_l. by apply IH1.
      * apply lang_alt_r. by apply IH2.
  - split.
    + intros (s1 & s2 & -> & H1 & H2)%lang_cat_inv.
      apply IH in H1. by apply (lang_star_cons _ (c :: s1) s2).
    + intros H. apply lang_star_inv in H as [?|(c' & s1 & s2 & Heq & H1 & H2)];
        [done|].
      injection Heq as -> ->. apply lang_cat; [by apply IH | done].
Qed.

Theorem fullmatch_spec r s : fullmatch r s = true ↔ lang r s.
Proof.
  revert r. induction s as [|c s IH]; intros r; simpl.
  - apply nullable_spec.
  - rewrite IH. apply deriv_spec.
Qed.

(** Bounded repetitions of a character class. *)
Lemma lang_exactly_class p n s :
  lang (exactly (Class p) n) s →
  length s = n ∧ Forall (λ c, p c = true) s.
Proof.
  revert s. induction n as [|n IH]; intros s; simpl.
  - intros ->%lang_eps_inv. by split.
  - intros (s1 & s2 & -> & (c & -> & Hc)%lang_class_inv & H2)%lang_cat_inv.
    apply IH in H2 as [<- ?]. simpl. split; [done | by constructor].
Qed.

Lemma lang_upto_class p n s :
  lang (upto (Class p) n) s →
  length s ≤ n ∧ Forall (λ c, p c = true) s.
Proof.
  revert s. induction n as [|n IH]; intros s; simpl.
  - intros ->%lang_eps_inv. by split.
  - intros [->%lang_eps_inv|H]%lang_alt_inv.
    + simpl. split; [lia | done].
    + apply lang_cat_inv in H
        as (s1 & s2 & -> & (c & -> & Hc)%lang_class_inv & H2).
      apply IH in H2 as [? ?]. simpl. split; [lia | by constructor].
Qed.

Lemma lang_rep_class p m n s :
  lang (Rep (Class p) m n) s →
  m ≤ length s ≤ m + (n - m) ∧ Forall (λ c, p c = true) s.
Proof.
  intros (s1 & s2 & -> & H1 & H2)%lang_cat_inv.
  apply lang_exactly_class in H1 as [<- ?].
  apply lang_upto_class in H2 as [? ?].
  rewrite length_app, Forall_app. split; [lia | done].
Qed.

(** A property of the end of every word of [r] that survives a longer
    prefix holds of every non-empty iteration of [r]. *)
Lemma lang_star_suffix (P : str → Prop) r :
  (∀ s, lang r s → P s) →
  (∀ s1 s2, P s2 → P (s1 ++ s2)) →
  ∀ s, lang (Star r) s → s = [] ∨ P s.
Proof.
  intros Hr Happ s H. remember (Star r) as r' eqn:Heq.
  induction H as [| | | | | |r0 s1 s2 H1 _ H2 IH]; try discriminate.
  - by left.
  - injection Heq as ->. right.
    destruct (IH eq_refl) as [->|HP].
    + rewrite app_nil_r. by apply Hr.
    + by apply Happ.
Qed.

Lemma lang_plus_suffix (P : str → Prop) r :
  (∀ s, lang r s → P s) →
  (∀ s1 s2, P s2 → P (s1 ++ s2)) →
  ∀ s, lang (Plus r) s → P s.
Proof.
  intros Hr Happ s (s1 & s2 & -> & H1 & H2)%lang_cat_inv.
  destruct (lang_star_suffix P r Hr Happ s2 H2) as [->|HP].
  - rewrite app_nil_r. by apply Hr.
  - by apply Happ.
Qed.
End regex.

(** ** The validity predicate *)

Section validity.
Implicit Types d p t : str.

Lemma cls_alpha_spec c :
  cls_alpha c = true
  ↔ (97 ≤ c ≤ 122 ∨ 65 ≤ c ≤ 90
     ∨ c = 304 ∨ c = 305 ∨ c = 383 ∨ c = 8490)%N.
Proof.
  unfold cls_alpha, in_range, ignorecase_extra.
  change (ord "a") with 97%N. change (ord "z") with 122%N.
  change (ord "A") with 65%N. change (ord "Z") with 90%N.
  rewrite !orb_true_iff, !andb_true_iff, !N.leb_le, !N.eqb_eq. lia.
Qed.

Lemma cls_dot_spec c : cls_dot c = true ↔ c = 46%N.
Proof. unfold cls_dot. change (ord ".") with 46%N. apply N.eqb_eq. Qed.

Lemma cls_alpha_not_dot c : cls_alpha c = true → cls_dot c = false.
Proof.
  rewrite cls_alpha_spec. intros H. apply not_true_is_false.
  rewrite cls_dot_spec. lia.
Qed.

Lemma final_label_no_dot t :
  existsb cls_dot t = false → final_label t = t.
Proof.
  destruct t as [|c t]; [done|]. simpl. intros H.
  by rewrite H.
Qed.

Lemma final_label_after_dot p t :
  existsb cls_dot t = false → final_label (p ++ [ord "."] ++ t) = t.
Proof.
  intros Ht. induction p as [|c p IH]; simpl.
  - change (cls_dot (ord ".")) with true. simpl.
    by apply final_label_no_dot.
  - rewrite existsb_app. simpl.
    change (cls_dot (ord ".")) with true. simpl.
    rewrite !orb_true_r. apply IH.
Qed.

Lemma existsb_dot_alpha t :
  Forall (λ c, cls_alpha c = true) t → existsb cls_dot t = false.
Proof.
  induction 1 as [|c t Hc _ IH]; [done|]. simpl.
  by rewrite (cls_alpha_not_dot c Hc), IH.
Qed.

(** Every word of the pattern's body is a prefix that ends in a dot,
    followed by 2 to 15 letters. *)
Lemma domain_body_shape d :
  lang domain_body d →
  ∃ p t, d = p ++ [ord "."] ++ t
         ∧ Forall (λ c, cls_alpha c = true) t ∧ 2 ≤ length t ≤ 15.
Proof.
  intros (s1 & s2 & -> & H1 & H2)%lang_cat_inv.
  apply lang_rep_class in H2 as [Hlen Hall].
  apply (lang_plus_suffix (λ s, ∃ p, s = p ++ [ord "."])) in H1
    as [p ->].
  - exists p, s2. rewrite <- app_assoc. split; [done|]. split; [done|lia].
  - intros s (u1 & u2 & -> & _ & (c & -> & Hc)%lang_class_inv)%lang_cat_inv.
    apply cls_dot_spec in Hc as ->. by exists u1.
  - intros u1 u2 [p ->]. exists (u1 ++ p). by rewrite app_assoc.
Qed.

Lemma is_valid_domain_shape d :
  is_valid_domain d = true →
  ∃ p t, (d = p ++ [ord "."] ++ t ∨ d = (p ++ [ord "."] ++ t) ++ [LF])
         ∧ Forall (λ c, cls_alpha c = true) t ∧ 2 ≤ length t ≤ 15.
Proof.
  unfold is_valid_domain, match_to_dollar.
  rewrite andb_true_iff, orb_true_iff, andb_true_iff.
  intros [_ [H|[Hlf H]]].
  - apply fullmatch_spec, domain_body_shape in H as (p & t & -> & ? & ?).
    exists p, t. auto.
  - apply endswith_spec in Hlf as [d' ->].
    rewrite slice_drop_last_app in H.
    apply fullmatch_spec, domain_body_shape in H as (p & t & -> & ? & ?).
    exists p, t. auto.
Qed.

(** A valid domain never ends in a dot. *)
Lemma is_valid_domain_no_trailing_dot d :
  is_valid_domain d = true → endswith (py ".") d = false.
Proof.
  intros (p & t & [->| ->] & Hall & Hlen)%is_valid_domain_shape.
  - destruct (exists_last (l := t)) as (t' & c & ->).
    { intros ->. simpl in Hlen. lia. }
    apply Forall_app in Hall as [_ Hc]. apply Forall_inv in Hc.
    rewrite !app_assoc. apply endswith_false_app.
    intros ->. apply cls_alpha_not_dot in Hc. done.
  - by apply endswith_false_app.
Qed.

(** The final label of a valid domain has 2 to 15 characters, or up to
    16 when the last of them is a line feed. *)
Lemma is_valid_domain_final_label d :
  is_valid_domain d = true →
  length (final_label d) ≤ 16
  ∧ (endswith [LF] d = false → 2 ≤ length (final_label d) ≤ 15).
Proof.
  intros (p & t & [->| ->] & Hall & Hlen)%is_valid_domain_shape.
  - rewrite final_label_after_dot by by apply existsb_dot_alpha.
    split; [lia | done].
  - assert (endswith [LF] ((p ++ [ord "."] ++ t) ++ [LF]) = true) as Hends.
    { apply endswith_spec. eauto. }
    rewrite Hends.
    replace ((p ++ [ord "."] ++ t) ++ [LF])
      with (p ++ [ord "."] ++ (t ++ [LF])) by by rewrite <- !app_assoc.
    rewrite final_label_after_dot.
    + rewrite length_app. simpl. split; [lia | done].
    + rewrite existsb_app, (existsb_dot_alpha t Hall). done.
Qed.
End validity.

(** ** Claims about the normalizer and the validity predicate *)

(** C3, counterexample: the normalizer is not idempotent. It strips one
    leading [www.] and one trailing dot, so on [www.www.a.com] a second
    application strips what the first one left. *)
Lemma clean_domain_not_idempotent :
  clean_domain (py "www.www.a.com") = py "www.a.com"
  ∧ clean_domain (clean_domain (py "www.www.a.com")) = py "a.com"
  ∧ ¬ ∀ d, clean_domain (clean_domain d) = clean_domain d.
Proof.
  split; [reflexivity|]. split; [reflexivity|].
  intros H. specialize (H (py "www.www.a.com")).
  vm_compute in H. discriminate.
Qed.

(** C3, as amended: a second application of the normalizer changes nothing
    exactly when the first result has no leading [www.] and no trailing dot
    left; [www.example.com.] is cleaned to [example.com], on which the
    normalizer is the identity. *)
Theorem clean_domain_idempotent_iff d :
  (clean_domain (clean_domain d) = clean_domain d
   ↔ startswith (py "www.") (clean_domain d) = false
     ∧ endswith (py ".") (clean_domain d) = false)
  ∧ clean_domain (py "www.example.com.") = py "example.com"
  ∧ clean_domain (py "example.com") = py "example.com".
Proof.
  split; [apply clean_domain_fixed|]. split; reflexivity.
Qed.

(** The examples of the validity predicate. *)
Lemma is_valid_domain_examples :
  is_valid_domain (py "example.com") = true
  ∧ is_valid_domain (py "http://example.com") = false
  ∧ is_valid_domain (py "a..com") = false
  ∧ is_valid_domain (py "ex") = false
  ∧ is_valid_domain (py "a.verylongtldname123") = false.
Proof. vm_compute. repeat split. Qed.

(** A final label of more than 15 characters is rejected, unless it is 15
    letters and a line feed. *)
Lemma is_valid_domain_long_final_label d :
  15 < length (final_label d) →
  endswith [LF] d = false ∨ 16 < length (final_label d) →
  is_valid_domain d = false.
Proof.
  intros Hlong Hcase. apply not_true_is_false. intros Hvalid.
  apply is_valid_domain_final_label in Hvalid as [H16 H15].
  destruct Hcase as [Hlf|?]; [apply H15 in Hlf|]; lia.
Qed.

(** C9: the predicate accepts a domain whose final label has 16
    characters, 15 letters and the line feed before which [$] matches. *)
Theorem is_valid_domain_accepts_16_char_label :
  is_valid_domain (py "a.abcdefghijklmno" ++ [LF]) = true
  ∧ length (final_label (py "a.abcdefghijklmno" ++ [LF])) = 16.
Proof. vm_compute. split; reflexivity. Qed.

(** ** The validated set *)

Lemma clean_loop_acc original acc :
  (fold_left clean_step original acc).1
  = acc.1 ++ omap cleaned_entry original.
Proof.
  revert acc. induction original as [|e original IH]; intros acc; simpl.
  - by rewrite app_nil_r.
  - rewrite IH. destruct e; simpl; [|done]. by rewrite <- app_assoc.
Qed.

Lemma cleaned_domains_spec original :
  cleaned_domains original = omap cleaned_entry original.
Proof. unfold cleaned_domains, clean_loop. by rewrite clean_loop_acc. Qed.

Lemma elem_of_input_domains original d :
  d ∈ input_domains original
  ↔ is_valid_domain d = true
    ∧ ∃ s, JString s ∈ original ∧ d = clean_domain s.
Proof.
  unfold input_domains.
  rewrite elem_of_list_to_set, list_elem_of_filter, cleaned_domains_spec.
  rewrite list_elem_of_omap. split.
  - intros [Hv (e & He & Hd)]. split; [done|].
    destruct e as [s|]; [|done]. injection Hd as <-. eauto.
  - intros [Hv (s & Hs & ->)]. split; [done|]. by exists (JString s).
Qed.

Lemma startswith_take p n (s : str) :
  startswith p (take n s) = true → startswith p s = true.
Proof.
  rewrite !startswith_spec. intros [t Ht]. exists (t ++ drop n s).
  by rewrite app_assoc, <- Ht, take_drop.
Qed.

(** A cleaned string still starts with [www.] only if the raw one started
    with [www.www.]. *)
Lemma clean_domain_www s :
  startswith (py "www.") (clean_domain s) = true →
  startswith (py "www.www.") s = true.
Proof.
  unfold clean_domain, slice_from, slice_drop_last.
  destruct (startswith (py "www.") s) eqn:Hw.
  - apply startswith_spec in Hw as [s' ->].
    change (drop 4 (py "www." ++ s')) with s'.
    intros H.
    assert (startswith (py "www.") s' = true) as [t ->]%startswith_spec.
    { destruct (endswith _ _); [by eapply startswith_take | done]. }
    apply startswith_spec. by exists t.
  - intros H.
    assert (startswith (py "www.") s = true).
    { destruct (endswith _ _); [by eapply startswith_take | done]. }
    congruence.
Qed.

(** C4, counterexample: from the raw input [["www.www.a.com"]] the
    validated set holds [www.a.com], which has a leading [www.] label. *)
Lemma input_domains_not_canonical :
  py "www.a.com" ∈ input_domains [JString (py "www.www.a.com")]
  ∧ startswith (py "www.") (py "www.a.com") = true
  ∧ ¬ ∀ original d,
        d ∈ input_domains original →
        startswith (py "www.") d = false ∧ endswith (py ".") d = false.
Proof.
  assert (py "www.a.com" ∈ input_domains [JString (py "www.www.a.com")])
    as Hin.
  { apply (bool_decide_unpack _). by vm_compute. }
  split; [exact Hin|]. split; [reflexivity|].
  intros H. destruct (H _ _ Hin) as [Hw _].
  vm_compute in Hw. discriminate.
Qed.

(** C4, as amended: no member of the validated set ends in a dot, and a
    member starts with [www.] only when the raw string it was cleaned from
    started with [www.www.]. *)
Theorem input_domains_canonical original d :
  d ∈ input_domains original →
  endswith (py ".") d = false
  ∧ (startswith (py "www.") d = true →
     ∃ s, JString s ∈ original ∧ d = clean_domain s
          ∧ startswith (py "www.www.") s = true).
Proof.
  intros [Hv (s & Hs & ->)]%elem_of_input_domains. split.
  - by apply is_valid_domain_no_trailing_dot.
  - intros Hw. exists s. split; [done|]. split; [done|].
    by apply clean_domain_www.
Qed.

(** The theorem at the raw input [["www.a.com."]], whose one member is
    [a.com]. *)
Lemma input_domains_canonical_witness :
  py "a.com" ∈ input_domains [JString (py "www.a.com.")]
  ∧ endswith (py ".") (py "a.com") = false.
Proof.
  assert (py "a.com" ∈ input_domains [JString (py "www.a.com.")]) as Hin.
  { apply (bool_decide_unpack _). by vm_compute. }
  split; [exact Hin|].
  exact (proj1 (input_domains_canonical _ _ Hin)).
Defined.

Lemma input_domains_dedup_example :
  input_domains dedup_example = {[ py "a.com"; py "A.COM" ]}.
Proof.
  unfold input_domains.
  assert (filter (λ d, is_valid_domain d = true)
                 (cleaned_domains dedup_example)
          = [py "a.com"; py "a.com"; py "A.COM"]) as ->
    by (vm_compute; reflexivity).
  set_solver.
Qed.

Lemma size_input_domains_dedup_example :
  size (input_domains dedup_example) = 2.
Proof.
  rewrite input_domains_dedup_example, size_union, !size_singleton; [done|].
  apply disjoint_singleton_l, not_elem_of_singleton. by vm_compute.
Qed.

(** C8, counterexample: the validated set built from
    [["a.com", "www.a.com", "A.COM"]] is not a single entry. *)
Lemma input_domains_dedup_not_single :
  size (input_domains dedup_example) = 2
  ∧ ¬ ∃ d, input_domains dedup_example = {[ d ]}.
Proof.
  split; [apply size_input_domains_dedup_example|].
  intros [d Hd]. pose proof size_input_domains_dedup_example as Hsize.
  rewrite Hd, size_singleton in Hsize. discriminate.
Qed.

(** C8, as amended: [a.com] and [www.a.com] are cleaned to the same string
    and collapse to the one entry [a.com]; equality is exact and case
    sensitive, so [A.COM] stays a second entry. *)
Theorem input_domains_dedup :
  input_domains dedup_example = {[ py "a.com"; py "A.COM" ]}
  ∧ size (input_domains dedup_example) = 2
  ∧ clean_domain (py "www.a.com") = clean_domain (py "a.com")
  ∧ clean_domain (py "A.COM") ≠ clean_domain (py "a.com").
Proof.
  split; [apply input_domains_dedup_example|].
  split; [apply size_input_domains_dedup_example|].
  split; [reflexivity | by vm_compute].
Qed.

(** ** Batching *)

Section batching.
Context {A : Type}.
Implicit Types l b : list A.

Lemma slice_take_drop l i n : slice l i (i + n) = take n (drop i l).
Proof. unfold slice. f_equal. lia. Qed.

(** The chunks that start at [i] make up the list from [i] on. *)
Lemma concat_chunks step fuel l i :
  0 < step → length l - i ≤ fuel →
  concat (map (λ j, slice l j (j + step))
              (py_range_aux fuel i (length l) step))
  = drop i l.
Proof.
  intros Hstep. revert i. induction fuel as [|fuel IH]; intros i Hfuel; simpl.
  - symmetry. apply drop_ge. lia.
  - destruct (Nat.ltb_spec i (length l)) as [Hlt|Hge]; simpl.
    + rewrite IH by lia. rewrite slice_take_drop.
      rewrite <- drop_drop. apply take_drop.
    + symmetry. apply drop_ge. lia.
Qed.

Lemma sum_list_length_concat (ls : list (list A)) :
  sum_list (length <$> ls) = length (concat ls).
Proof.
  induction ls as [|b ls IH]; simpl; [done|].
  rewrite length_app. by f_equal.
Qed.

Lemma elem_of_concat x (ls : list (list A)) :
  x ∈ concat ls ↔ ∃ b, x ∈ b ∧ b ∈ ls.
Proof.
  induction ls as [|c ls IH]; simpl.
  - split; [by intros ?%elem_of_nil | by intros (b & _ & ?%elem_of_nil)].
  - rewrite elem_of_app, IH. split.
    + intros [?|(b & ? & ?)].
      * exists c. split; [done | apply list_elem_of_here].
      * exists b. split; [done | by apply list_elem_of_further].
    + intros (b & Hx & [->|?]%elem_of_cons); [by left|].
      right. by exists b.
Qed.

(** In a list of lists whose concatenation has no duplicates, an element
    occurs in one position only. *)
Lemma NoDup_concat_unique (ls : list (list A)) i j b b' x :
  NoDup (concat ls) →
  ls !! i = Some b → ls !! j = Some b' → x ∈ b → x ∈ b' → i = j.
Proof.
  revert i j. induction ls as [|c ls IH]; intros i j Hnd Hi Hj Hb Hb';
    [done|].
  simpl in Hnd. apply NoDup_app in Hnd as (_ & Hdisj & Hnd).
  assert (Htail : ∀ k b0, ls !! k = Some b0 → x ∈ b0 → x ∈ concat ls).
  { intros k b0 Hk Hx. apply elem_of_concat. exists b0.
    split; [done|]. by eapply list_elem_of_lookup_2. }
  destruct i as [|i], j as [|j]; simpl in *.
  - done.
  - injection Hi as ->. exfalso. by eapply Hdisj, Htail.
  - injection Hj as ->. exfalso. by eapply Hdisj, Htail.
  - f_equal. by eapply IH.
Qed.
End batching.

Lemma ceil_div_step n step :
  0 < step → 0 < n → (n + step - 1) / step = S ((n - step + step - 1) / step).
Proof.
  intros Hstep Hn. destruct (Nat.le_gt_cases step n) as [Hle|Hlt].
  - replace (n + step - 1) with ((n - step + step - 1) + 1 * step) by lia.
    rewrite Nat.div_add by lia. lia.
  - replace (n - step) with 0 by lia. simpl.
    rewrite (Nat.div_small (step - 1)) by lia.
    symmetry. apply (Nat.div_unique _ _ _ (n - 1)); lia.
Qed.

(** [range(i, stop, step)] has [ceil((stop - i) / step)] elements. *)
Lemma length_py_range_aux step fuel i stop :
  0 < step → stop - i ≤ fuel →
  length (py_range_aux fuel i stop step) = (stop - i + step - 1) / step.
Proof.
  intros Hstep. revert i. induction fuel as [|fuel IH]; intros i Hfuel; simpl.
  - replace (stop - i) with 0 by lia. simpl.
    symmetry. apply Nat.div_small. lia.
  - destruct (Nat.ltb_spec i stop) as [Hlt|Hge]; simpl.
    + rewrite IH by lia. rewrite (ceil_div_step (stop - i)) by lia.
      do 3 f_equal. lia.
    + replace (stop - i) with 0 by lia. simpl.
      symmetry. apply Nat.div_small. lia.
Qed.

Lemma batches_make_batches (X : gset str) :
  batches X = make_batches 50 (elements X).
Proof. reflexivity. Qed.

Lemma concat_make_batches step (l : list str) :
  0 < step → concat (make_batches step l) = l.
Proof.
  intros Hstep. unfold make_batches, py_range.
  by rewrite concat_chunks by lia.
Qed.

Lemma length_make_batches step (l : list str) :
  0 < step → length (make_batches step l) = (length l + step - 1) / step.
Proof.
  intros Hstep. unfold make_batches, py_range.
  rewrite length_map, length_py_range_aux by lia. do 2 f_equal. lia.
Qed.

(** C5: the batches of a validated set of size [N] have lengths that add
    up to [N]; every domain of the set lies in exactly one batch, once, and
    the batches hold nothing else; there are [ceil(N / 50)] batches; and
    the empty set gives no batch. *)
Theorem batches_partition (X : gset str) :
  sum_list (length <$> batches X) = size X
  ∧ (∀ d, d ∈ X →
       ∃ i b, batches X !! i = Some b ∧ d ∈ b
              ∧ ∀ j b', batches X !! j = Some b' → d ∈ b' → j = i)
  ∧ NoDup (concat (batches X))
  ∧ (∀ d, d ∈ concat (batches X) ↔ d ∈ X)
  ∧ length (batches X) = (size X + 49) / 50
  ∧ batches (∅ : gset str) = [].
Proof.
  assert (Hcat : concat (batches X) = elements X).
  { rewrite batches_make_batches. apply concat_make_batches. lia. }
  assert (Hnd : NoDup (concat (batches X))).
  { rewrite Hcat. apply NoDup_elements. }
  split; [|split; [|split; [|split; [|split]]]].
  - rewrite sum_list_length_concat, Hcat. done.
  - intros d Hd.
    assert (d ∈ concat (batches X)) as Hin.
    { rewrite Hcat. by apply elem_of_elements. }
    apply elem_of_concat in Hin as (b & Hdb & Hb).
    apply list_elem_of_lookup in Hb as [i Hi].
    exists i, b. split; [done|]. split; [done|].
    intros j b' Hj Hdb'. by eapply (NoDup_concat_unique (batches X)).
  - done.
  - intros d. rewrite Hcat. apply elem_of_elements.
  - rewrite batches_make_batches, length_make_batches by lia.
    unfold size, set_size. simpl.
    by replace (length (elements X) + 50 - 1) with (length (elements X) + 49)
      by lia.
  - unfold batches. rewrite size_empty. reflexivity.
Qed.

(** ** Aggregation *)

Section aggregation.
Implicit Types V R : gset str.

Lemma elem_of_update_filtered V R l d :
  d ∈ update_filtered V R l ↔ d ∈ R ∨ (d ∈ l ∧ d ∈ V).
Proof.
  unfold update_filtered. revert R.
  induction l as [|x l IH]; intros R; simpl.
  - rewrite elem_of_nil. tauto.
  - rewrite IH, elem_of_cons. destruct (decide (x ∈ V)) as [Hx|Hx].
    + rewrite elem_of_union, elem_of_singleton. split.
      * intros [[?| ->]|[? ?]]; auto.
      * intros [?|[[->|?] ?]]; auto.
    + split.
      * intros [?|[? ?]]; auto.
      * intros [?|[[->|?] ?]]; auto. done.
Qed.

Lemma present_and_truthy_selected it :
  selected_list it
  = if present_and_truthy (employeeAt it) then getitem (employeeAt it)
    else if present_and_truthy (clientAt it) then getitem (clientAt it)
    else [].
Proof.
  unfold selected_list.
  destruct (employeeAt it) as [[|? ?]|], (clientAt it) as [[|? ?]|]; done.
Qed.

Lemma elem_of_absorb_item V R it d :
  d ∈ absorb_item V R it ↔ d ∈ R ∨ (d ∈ selected_list it ∧ d ∈ V).
Proof.
  unfold absorb_item. rewrite present_and_truthy_selected.
  destruct (present_and_truthy (employeeAt it));
    [apply elem_of_update_filtered|].
  destruct (present_and_truthy (clientAt it));
    [apply elem_of_update_filtered|].
  rewrite elem_of_nil. tauto.
Qed.

Lemma elem_of_absorb_items V R items d :
  d ∈ fold_left (absorb_item V) items R
  ↔ d ∈ R ∨ (d ∈ V ∧ ∃ it, it ∈ items ∧ d ∈ selected_list it).
Proof.
  revert R. induction items as [|it items IH]; intros R; simpl.
  - split; [auto|]. intros [?|[_ (it & ?%elem_of_nil & _)]]; done.
  - rewrite IH, elem_of_absorb_item. split.
    + intros [[?|[? ?]]|[? (it' & ? & ?)]]; auto.
      * right. split; [done|]. exists it. split; [apply list_elem_of_here|done].
      * right. split; [done|]. exists it'.
        split; [by apply list_elem_of_further|done].
    + intros [?|[? (it' & [->|?]%elem_of_cons & ?)]]; auto.
      right. split; [done|]. by exists it'.
Qed.

Lemma elem_of_absorb_Some V R items d :
  d ∈ absorb V R (Some items)
  ↔ d ∈ R ∨ (d ∈ V ∧ ∃ it, it ∈ items ∧ d ∈ selected_list it).
Proof.
  destruct items as [|it items].
  - simpl. split; [auto|]. intros [?|[_ (it & ?%elem_of_nil & _)]]; done.
  - unfold absorb. apply elem_of_absorb_items.
Qed.

Lemma absorb_subseteq V R o : R ⊆ V → absorb V R o ⊆ V.
Proof.
  destruct o as [items|]; intros Hsub; [|done].
  intros d [?|[? _]]%elem_of_absorb_Some; auto.
Qed.
End aggregation.

(** The aggregation examples of the specification: a listed domain outside
    the validated set is dropped, one inside it is kept, and [clientAt] is
    not read when [employeeAt] holds a domain. *)
Lemma absorb_examples :
  absorb {[ py "y.com" ]} ∅
    (Some [Item (Some [py "x.com"; py "y.com"]) None]) = {[ py "y.com" ]}
  ∧ absorb {[ py "a.com"; py "b.com" ]} ∅
      (Some [Item (Some [py "a.com"; py "z.com"]) None]) = {[ py "a.com" ]}
  ∧ absorb {[ py "a.com"; py "b.com" ]} ∅
      (Some [Item (Some [py "a.com"]) (Some [py "b.com"])]) = {[ py "a.com" ]}.
Proof.
  split; [|split]; apply set_eq; intros d;
    rewrite elem_of_absorb_Some; unfold selected_list; simpl;
    split.
  - intros [?%elem_of_empty|[Hd (it & ->%list_elem_of_singleton & _)]]; done.
  - intros Hd. right. split; [done|]. eexists. split; [apply list_elem_of_here|].
    apply elem_of_singleton in Hd as ->. simpl. set_solver.
  - intros [?%elem_of_empty|[Hd (it & ->%list_elem_of_singleton & Hit)]];
      [done|]. simpl in Hit.
    apply elem_of_cons in Hit as [->|Hit]; [set_solver|].
    apply list_elem_of_singleton in Hit as ->.
    apply elem_of_union in Hd as [Hd|Hd];
      apply elem_of_singleton in Hd; by vm_compute in Hd.
  - intros Hd. right. apply elem_of_singleton in Hd as ->.
    split; [set_solver|]. eexists. split; [apply list_elem_of_here|].
    simpl. set_solver.
  - intros [?%elem_of_empty|[Hd (it & ->%list_elem_of_singleton & Hit)]];
      [done|]. simpl in Hit. apply list_elem_of_singleton in Hit as ->.
    set_solver.
  - intros Hd. right. apply elem_of_singleton in Hd as ->.
    split; [set_solver|]. eexists. split; [apply list_elem_of_here|].
    simpl. set_solver.
Qed.

(** ** The retrying fetcher *)

Section exec.
Context {R : Type}.
Variable w : env.
Implicit Types k : prog R.

Lemma exec_IsSet reads posts (f : bool → prog R) :
  exec w reads posts (IsSet f)
  = ((exec w (S reads) posts (f (flag_read w reads))).1,
     EIsSet (flag_read w reads)
     :: (exec w (S reads) posts (f (flag_read w reads))).2).
Proof. simpl. by destruct (exec _ _ _ _). Qed.

Lemma exec_Post reads posts payload (f : attempt_result → prog R) :
  exec w reads posts (Post payload f)
  = ((exec w reads (S posts) (f (response w posts))).1,
     EPost payload (response w posts)
     :: (exec w reads (S posts) (f (response w posts))).2).
Proof. simpl. by destruct (exec _ _ _ _). Qed.

Lemma exec_Sleep reads posts secs k :
  exec w reads posts (Sleep secs k)
  = ((exec w reads posts k).1, ESleep secs :: (exec w reads posts k).2).
Proof. simpl. by destruct (exec _ _ _ _). Qed.

Lemma exec_Log reads posts m k :
  exec w reads posts (Log m k)
  = ((exec w reads posts k).1, ELog m :: (exec w reads posts k).2).
Proof. simpl. by destruct (exec _ _ _ _). Qed.

Lemma exec_Return reads posts (r : R) :
  exec w reads posts (Return r) = (Returned r, []).
Proof. done. Qed.

Lemma exec_Raise reads posts e :
  exec w reads posts (Raise e : prog R) = (Raised e, []).
Proof. done. Qed.
End exec.

Create Rewrite HintDb exec.
#[local] Hint Rewrite @exec_IsSet @exec_Post @exec_Sleep @exec_Log
  @exec_Return @exec_Raise : exec.

Lemma attempts_S todo attempt batch index :
  attempts (S todo) attempt batch index
  = IsSet (λ set,
      if set then Return None
      else Post batch (λ r,
        match r with
        | Response body => Return (Some body)
        | NullResponse => Return None
        | RequestException e =>
            Log (WarnAttemptFailed (index + 1) (attempt + 1) e)
              (if attempt =? 4
               then Log (ErrorAllFailed (index + 1) e) (Return None)
               else Sleep (2 ^ attempt * 2)
                      (attempts todo (S attempt) batch index))
        | OtherException e => Raise e
        end)).
Proof. done. Qed.

#[local] Arguments attempts : simpl never.

Section fetcher.
Variable w : env.
Variable batch : list str.
Variable index : nat.

(** The attempts and sleeps of the retry loop are an initial part of the
    timeline on which every attempt fails. *)
Lemma attempts_timeline todo attempt reads posts :
  timeline (exec w reads posts (attempts todo attempt batch index)).2
  `prefix_of` full_timeline todo attempt.
Proof.
  revert attempt reads posts.
  induction todo as [|todo IH]; intros attempt reads posts.
  - done.
  - rewrite attempts_S. cbn [full_timeline]. autorewrite with exec.
    destruct (flag_read w reads); autorewrite with exec; simpl;
      [apply prefix_nil|].
    destruct (response w posts) as [body| |e|e]; autorewrite with exec; simpl.
    + apply prefix_cons, prefix_nil.
    + apply prefix_cons, prefix_nil.
    + apply prefix_cons.
      destruct (attempt =? 4); autorewrite with exec; simpl; [done|].
      apply prefix_cons, IH.
    + apply prefix_cons, prefix_nil.
Qed.

Lemma fetch_data_timeline :
  timeline (run_fetch w batch index).2 `prefix_of` full_timeline 5 0.
Proof.
  unfold run_fetch, fetch_data. rewrite exec_IsSet.
  destruct (flag_read w 0).
  - apply prefix_nil.
  - apply (attempts_timeline 5 0 1 0).
Qed.
End fetcher.

Lemma length_posts_timeline (t : list event) :
  length (posts_of t) = length (filter (λ k, k = Attempt) (timeline t)).
Proof.
  unfold posts_of, timeline.
  induction t as [|[] t IH]; cbn [omap list_omap]; try done.
  rewrite filter_cons_True by done. simpl. by f_equal.
Qed.

Lemma sleeps_timeline (t : list event) :
  sleeps_of t
  = omap (λ k, match k with Wait secs => Some secs | Attempt => None end)
         (timeline t).
Proof.
  unfold sleeps_of, timeline.
  induction t as [|[] t IH]; simpl; try done. by f_equal.
Qed.

Lemma prefix_length_filter {A} (P : A → Prop) `{∀ x, Decision (P x)}
    (l1 l2 : list A) :
  l1 `prefix_of` l2 → length (filter P l1) ≤ length (filter P l2).
Proof. intros [k ->]. rewrite filter_app, length_app. lia. Qed.

Lemma prefix_omap {A B} (f : A → option B) (l1 l2 : list A) :
  l1 `prefix_of` l2 → omap f l1 `prefix_of` omap f l2.
Proof. intros [k ->]. rewrite omap_app. by apply prefix_app_r. Qed.

(** C2: whatever the environment does, the attempts and sleeps of one
    call are an initial part of: attempt, 2 s, attempt, 4 s, attempt, 8 s,
    attempt, 16 s, attempt; so there are at most 5 attempts, and the sleeps
    are an initial part of 2, 4, 8, 16. If the first four attempts fail and
    the fifth succeeds, the call returns the response after the whole of
    that timeline. If every attempt fails, the call returns [None] after
    the whole of that timeline, 5 posts of the batch, and it returns: it
    does not raise. *)
Theorem fetch_data_retry batch index :
  (∀ w, timeline (run_fetch w batch index).2 `prefix_of` backoff_timeline
        ∧ length (posts_of (run_fetch w batch index).2) ≤ 5
        ∧ sleeps_of (run_fetch w batch index).2 `prefix_of` [2; 4; 8; 16])
  ∧ (∀ e0 e1 e2 e3 body rest,
       (run_fetch (fails_4_then_succeeds e0 e1 e2 e3 body rest)
                  batch index).1 = Returned (Some body)
       ∧ timeline (run_fetch (fails_4_then_succeeds e0 e1 e2 e3 body rest)
                             batch index).2 = backoff_timeline
       ∧ sleeps_of (run_fetch (fails_4_then_succeeds e0 e1 e2 e3 body rest)
                              batch index).2 = [2; 4; 8; 16]
       ∧ terminal_of (run_fetch (fails_4_then_succeeds e0 e1 e2 e3 body rest)
                                batch index).2 = Succeeded)
  ∧ (∀ e,
       (run_fetch (always_fails e) batch index).1 = Returned None
       ∧ timeline (run_fetch (always_fails e) batch index).2
         = backoff_timeline
       ∧ posts_of (run_fetch (always_fails e) batch index).2
         = replicate 5 batch
       ∧ sleeps_of (run_fetch (always_fails e) batch index).2 = [2; 4; 8; 16]
       ∧ terminal_of (run_fetch (always_fails e) batch index).2 = Failed).
Proof.
  split; [|split].
  - intros w. pose proof (fetch_data_timeline w batch index) as Hpre.
    split; [exact Hpre|]. split.
    + rewrite length_posts_timeline.
      apply (prefix_length_filter (λ k, k = Attempt)) in Hpre. exact Hpre.
    + rewrite sleeps_timeline.
      apply (prefix_omap
               (λ k, match k with Wait secs => Some secs | Attempt => None end))
        in Hpre. exact Hpre.
  - intros. repeat split; reflexivity.
  - intros. repeat split; reflexivity.
Qed.

Ltac case_env w :=
  repeat (rewrite ?attempts_S; autorewrite with exec; cbn;
    match goal with
    | |- context [flag_read w ?n] => destruct (flag_read w n)
    | |- context [response w ?n] => destruct (response w n)
    end); autorewrite with exec; cbn.

(** C7, counterexample: a call that sees the flag set and a call that uses
    up its five attempts end differently and return the same value,
    [None]; so no function of the returned value tells how a call ended. *)
Lemma fetch_outcome_not_tagged :
  (run_fetch (set_from_the_start (λ _, Response [])) [py "a.com"] 0).1
  = (run_fetch (always_fails (λ _, Exn "timeout")) [py "a.com"] 0).1
  ∧ terminal_of
      (run_fetch (set_from_the_start (λ _, Response [])) [py "a.com"] 0).2
    = Cancelled
  ∧ terminal_of
      (run_fetch (always_fails (λ _, Exn "timeout")) [py "a.com"] 0).2
    = Failed
  ∧ ¬ ∃ classify : outcome (option data) → terminal_case,
        ∀ w batch index,
          classify (run_fetch w batch index).1
          = terminal_of (run_fetch w batch index).2.
Proof.
  split; [reflexivity|]. split; [reflexivity|]. split; [reflexivity|].
  intros [classify H].
  pose proof (H (set_from_the_start (λ _, Response [])) [py "a.com"] 0) as Hc.
  pose proof (H (always_fails (λ _, Exn "timeout")) [py "a.com"] 0) as Hf.
  vm_compute in Hc, Hf. congruence.
Qed.

(** C7, as amended: the value that [fetch_data] returns carries no tag.
    When an attempt succeeded it is the parsed body of that response, as
    it is: the records, or [None] when the body is [null]. It is [None]
    when the attempts are used up and [None] when the call saw the flag
    set. So a value other than [None] comes from a success only, while
    [None] is returned in all three cases, and a success whose body is
    [null] is such a case. An exception that is not a [RequestException]
    leaves the call. *)
Theorem fetch_outcome_cases w batch index :
  match terminal_of (run_fetch w batch index).2 with
  | Succeeded =>
      (∃ payload body,
         last (run_fetch w batch index).2 = Some (EPost payload (Response body))
         ∧ (run_fetch w batch index).1 = Returned (Some body))
      ∨ (∃ payload,
           last (run_fetch w batch index).2 = Some (EPost payload NullResponse)
           ∧ (run_fetch w batch index).1 = Returned None)
  | Failed => (run_fetch w batch index).1 = Returned None
  | Cancelled => (run_fetch w batch index).1 = Returned None
  | Faulted => ∃ e, (run_fetch w batch index).1 = Raised e
  end
  ∧ (∀ body, (run_fetch w batch index).1 = Returned (Some body) →
             terminal_of (run_fetch w batch index).2 = Succeeded)
  ∧ terminal_of (run_fetch answers_null batch index).2 = Succeeded
  ∧ (run_fetch answers_null batch index).1 = Returned None.
Proof.
  split; [|split; [|split; reflexivity]].
  - unfold run_fetch, fetch_data. case_env w; eauto 6.
  - unfold run_fetch, fetch_data. case_env w; intros body' [=]; done.
Qed.

(** ** The dispatch loop *)

Module PoolFacts.
Import Pool.

Lemma posts_of_app t1 t2 : posts_of (t1 ++ t2) = posts_of t1 ++ posts_of t2.
Proof. apply omap_app. Qed.

Lemma network_calls_add_event s i e :
  network_calls (add_event s i e) = network_calls s ++ posts_of [e].
Proof.
  unfold network_calls, add_event. simpl.
  by rewrite fmap_app, posts_of_app.
Qed.

(** *** One step *)

Lemma work_step_fields s i r s' :
  work_step s i r = Some s' →
  shutdown_flag s' = shutdown_flag s ∧ results s' = results s
  ∧ loop s' = loop s ∧ yielded s' = yielded s ∧ input s' = input s.
Proof.
  unfold work_step. intros H.
  destruct (futures s !! i) as [[|[]]|]; simplify_eq; done.
Qed.

(** No step clears the flag. *)
Lemma step_flag a s s' :
  step a s = Some s' → shutdown_flag s = true → shutdown_flag s' = true.
Proof.
  destruct a as [| |i r|i|]; simpl; intros H Hflag.
  - by simplify_eq.
  - repeat case_match; by simplify_eq.
  - apply work_step_fields in H as [-> _]. done.
  - unfold collect_step in H. repeat case_match; by simplify_eq.
  - repeat case_match; by simplify_eq.
Qed.

(** While the flag is set no step changes the results. *)
Lemma step_results_flag a s s' :
  step a s = Some s' → shutdown_flag s = true → results s' = results s.
Proof.
  destruct a as [| |i r|i|]; simpl; intros H Hflag.
  - by simplify_eq.
  - repeat case_match; by simplify_eq.
  - by apply work_step_fields in H as (_ & -> & _).
  - unfold collect_step in H. rewrite Hflag in H.
    repeat case_match; by simplify_eq.
  - repeat case_match; by simplify_eq.
Qed.

(** Past the loop no step changes the results or re-enters the loop. *)
Lemma step_past_loop a s s' :
  step a s = Some s' → loop s ≠ InLoop →
  loop s' = loop s ∧ results s' = results s.
Proof.
  destruct a as [| |i r|i|]; simpl; intros H Hloop.
  - by simplify_eq.
  - repeat case_match; by simplify_eq.
  - by apply work_step_fields in H as (_ & -> & -> & _).
  - unfold collect_step in H. destruct (loop s); try done.
  - destruct (loop s); done.
Qed.

(** *** Schedules *)

Lemma run_cons a sched s : run (a :: sched) s = run sched (step_or_stay s a).
Proof. done. Qed.

Lemma run_app sched1 sched2 s :
  run (sched1 ++ sched2) s = run sched2 (run sched1 s).
Proof. apply fold_left_app. Qed.

Lemma step_or_stay_Some a s s' : step a s = Some s' → step_or_stay s a = s'.
Proof. unfold step_or_stay. by intros ->. Qed.

Lemma step_or_stay_cases s a :
  (step a s = None ∧ step_or_stay s a = s)
  ∨ (∃ s', step a s = Some s' ∧ step_or_stay s a = s').
Proof.
  unfold step_or_stay. destruct (step a s) as [s'|]; [right; eauto | by left].
Qed.

Lemma run_flag sched s :
  shutdown_flag s = true →
  shutdown_flag (run sched s) = true ∧ results (run sched s) = results s.
Proof.
  revert s. induction sched as [|a sched IH]; intros s Hflag; [done|].
  rewrite run_cons.
  destruct (step_or_stay_cases s a) as [[_ ->]|(s' & Hstep & ->)];
    [by apply IH|].
  destruct (IH s') as [? ->]; [by eapply step_flag|].
  split; [done|]. by eapply step_results_flag.
Qed.

Lemma run_past_loop sched s :
  loop s ≠ InLoop →
  loop (run sched s) = loop s ∧ results (run sched s) = results s.
Proof.
  revert s. induction sched as [|a sched IH]; intros s Hloop; [done|].
  rewrite run_cons.
  destruct (step_or_stay_cases s a) as [[_ ->]|(s' & Hstep & ->)];
    [by apply IH|].
  destruct (step_past_loop a s s' Hstep Hloop) as [Hl Hr].
  destruct (IH s') as [-> ->]; [congruence|]. done.
Qed.

(** *** The results stay within the validated set *)

Lemma step_results_within a s s' :
  step a s = Some s' → results s ⊆ input s →
  input s' = input s ∧ results s' ⊆ input s'.
Proof.
  destruct a as [| |i r|i|]; simpl; intros H Hsub.
  - by simplify_eq.
  - repeat case_match; by simplify_eq.
  - apply work_step_fields in H as (_ & -> & _ & _ & ->). done.
  - unfold collect_step in H. repeat case_match; simplify_eq; try done.
    simpl. split; [done|]. by apply absorb_subseteq.
  - repeat case_match; by simplify_eq.
Qed.

Lemma run_results_within sched s :
  results s ⊆ input s →
  input (run sched s) = input s ∧ results (run sched s) ⊆ input s.
Proof.
  revert s. induction sched as [|a sched IH]; intros s Hsub; [done|].
  rewrite run_cons.
  destruct (step_or_stay_cases s a) as [[_ ->]|(s' & Hstep & ->)];
    [by apply IH|].
  destruct (step_results_within a s s' Hstep Hsub) as [Hin Hsub'].
  destruct (IH s' Hsub') as [-> ?]. by rewrite <- Hin.
Qed.

(** *** A run whose flag is set from the start *)

Lemma unstarted_submit_all bs : Forall unstarted (submit_all bs).
Proof.
  unfold submit_all. apply Forall_forall. intros f Hf.
  apply list_elem_of_lookup in Hf as [i Hi].
  apply list_lookup_imap_Some in Hi as (b & _ & ->).
  left. eauto.
Qed.

Lemma cancelled_inv_dispatch V bs : cancelled_inv (dispatch V bs true).
Proof. repeat split. apply unstarted_submit_all. Qed.

Lemma cancelled_inv_step a s s' :
  step a s = Some s' → cancelled_inv s → cancelled_inv s'.
Proof.
  intros Hstep (Hflag & Hres & Hnet & Hfut).
  split; [by eapply step_flag|].
  split; [by rewrite (step_results_flag a s s')|].
  destruct a as [| |i r|i|]; simpl in Hstep.
  - by simplify_eq.
  - destruct (count_active _ <? _); [|done].
    destruct (first_queued _ _) as [i|]; [|done].
    destruct (futures s !! i) as [[work|]|] eqn:Hi; [|done|done].
    simplify_eq. split; [done|]. simpl.
    apply Forall_insert; [done|].
    eapply Forall_lookup_1 in Hfut as Hf; [|exact Hi].
    destruct Hf as [(b & j & [= ->])|[(b & j & [=])|[=]]].
    right. left. eauto.
  - unfold work_step in Hstep.
    destruct (futures s !! i) as [f|] eqn:Hi; [|done].
    eapply Forall_lookup_1 in Hfut as Hf; [|exact Hi].
    destruct Hf as [(b & j & ->)|[(b & j & ->)| ->]]; [done| |done].
    unfold fetch_data in Hstep. simplify_eq. rewrite Hflag.
    rewrite network_calls_add_event. simpl.
    split; [by rewrite app_nil_r|].
    apply Forall_insert; [done|]. right. by right.
  - unfold collect_step in Hstep. rewrite Hflag in Hstep.
    repeat case_match; by simplify_eq.
  - repeat case_match; by simplify_eq.
Qed.

Lemma cancelled_inv_run sched s : cancelled_inv s → cancelled_inv (run sched s).
Proof.
  revert s. induction sched as [|a sched IH]; intros s Hinv; [done|].
  rewrite run_cons.
  destruct (step_or_stay_cases s a) as [[_ ->]|(s' & Hstep & ->)];
    [by apply IH|].
  apply IH. by eapply cancelled_inv_step.
Qed.

(** *** Draining the queue when the flag is set *)

Lemma count_active_inactive fs :
  Forall (λ f, active f = false) fs → count_active fs = 0.
Proof.
  unfold count_active. induction 1 as [|f fs Hf _ IH]; [done|].
  rewrite filter_cons_False; [done | congruence].
Qed.

Lemma first_queued_app pre q rest k :
  Forall (λ f, is_queued f = false) pre → is_queued q = true →
  first_queued (pre ++ q :: rest) k = Some (k + length pre).
Proof.
  intros Hpre Hq. revert k.
  induction Hpre as [|f pre Hf _ IH]; intros k; simpl.
  - rewrite Hq. f_equal. lia.
  - rewrite Hf, IH. f_equal. lia.
Qed.

Lemma drain_S from n :
  drain from (S n) = Start :: Work from (Response []) :: drain (S from) n.
Proof. done. Qed.

Lemma run_drain qs pre s :
  futures s = pre ++ qs →
  Forall (λ f, f = Running (Return None)) pre →
  Forall (λ f, ∃ b i, f = Queued (fetch_data b i)) qs →
  shutdown_flag s = true →
  futures (run (drain (length pre) (length qs)) s)
  = pre ++ replicate (length qs) (Running (Return None))
  ∧ loop (run (drain (length pre) (length qs)) s) = loop s
  ∧ yielded (run (drain (length pre) (length qs)) s) = yielded s.
Proof.
  revert pre s. induction qs as [|q qs IH]; intros pre s Hfut Hpre Hqs Hflag.
  - simpl. by rewrite app_nil_r in *.
  - apply Forall_cons in Hqs as [(b & i & ->) Hqs].
    cbn [length].
    assert (step Start s
            = Some (set_futures s
                      (pre ++ Running (fetch_data b i) :: qs))) as Hstart.
    { simpl. rewrite Hfut. rewrite count_active_inactive.
      - rewrite (first_queued_app pre (Queued (fetch_data b i)) qs 0);
          [|by eapply Forall_impl; [exact Hpre|]; intros ? ->|done].
        simpl. rewrite list_lookup_middle by done.
        do 2 f_equal. rewrite <- (Nat.add_0_r (length pre)).
        by rewrite insert_app_r.
      - apply Forall_app. split.
        + eapply Forall_impl; [exact Hpre|]. by intros ? ->.
        + constructor; [done|].
          eapply Forall_impl; [exact Hqs|]. by intros ? (? & ? & ->). }
    set (s1 := set_futures s (pre ++ Running (fetch_data b i) :: qs)) in *.
    assert (step (Work (length pre) (Response [])) s1
            = Some (add_event
                      (set_futures s1 (pre ++ Running (Return None) :: qs))
                      (length pre) (EIsSet true))) as Hwork.
    { simpl. unfold work_step. subst s1. simpl.
      rewrite list_lookup_middle by done. unfold fetch_data.
      rewrite Hflag. do 3 f_equal.
      rewrite <- (Nat.add_0_r (length pre)). by rewrite insert_app_r. }
    set (s2 := add_event _ _ _) in Hwork.
    assert (run (drain (length pre) (S (length qs))) s
            = run (drain (S (length pre)) (length qs)) s2) as ->.
    { rewrite drain_S, !run_cons.
      by rewrite (step_or_stay_Some _ _ _ Hstart),
                 (step_or_stay_Some _ _ _ Hwork). }
    destruct (IH (pre ++ [Running (Return None)]) s2) as (Hf & Hl & Hy).
    + subst s2 s1. simpl. by rewrite <- app_assoc.
    + apply Forall_app. split; [done|]. by constructor.
    + done.
    + done.
    + rewrite length_app in Hf, Hl, Hy. simpl in Hf, Hl, Hy.
      rewrite Nat.add_1_r in Hf, Hl, Hy.
      rewrite Hf, Hl, Hy. split; [|done].
      by rewrite <- app_assoc.
Qed.

Lemma submit_all_queued bs :
  Forall (λ f, ∃ b i, f = Queued (fetch_data b i)) (submit_all bs).
Proof.
  unfold submit_all. apply Forall_forall. intros f Hf.
  apply list_elem_of_lookup in Hf as [i Hi].
  apply list_lookup_imap_Some in Hi as (b & _ & ->). eauto.
Qed.

Lemma length_submit_all bs : length (submit_all bs) = length bs.
Proof. apply length_imap. Qed.

(** With the flag set from the start the run comes to its end, and writes
    the empty set. *)
Lemma written_drain_and_collect V bs :
  written (run (drain_and_collect (length bs)) (dispatch V bs true)) = Some ∅.
Proof.
  unfold drain_and_collect. rewrite run_app.
  destruct (run_drain (submit_all bs) [] (dispatch V bs true))
    as (Hf & Hl & Hy); [done|done|apply submit_all_queued|done|].
  pose proof (cancelled_inv_run (drain 0 (length bs)) _
                (cancelled_inv_dispatch V bs)) as (Hflag & Hres & _).
  rewrite length_submit_all in Hf, Hl, Hy.
  change (length (@nil future)) with 0 in Hf, Hl, Hy.
  cbn [app dispatch loop yielded] in Hf, Hl, Hy.
  set (s := run (drain 0 (length bs)) (dispatch V bs true)) in *.
  clearbody s. destruct (length bs) as [|n]; cbn [replicate] in Hf.
  - assert (step (Collect 0) s = None) as Hc.
    { simpl. unfold collect_step. by rewrite Hl, Hf. }
    assert (∃ s', step EndLoop s = Some s' ∧ written s' = Some ∅)
      as (s' & He & Hw).
    { simpl. rewrite Hl, Hy, Hf. simpl. eexists. split; [done|].
      unfold written, all_done. simpl. by rewrite ?Hf, ?Hres. }
    rewrite !run_cons. unfold step_or_stay at 2. rewrite Hc. simpl default.
    by rewrite (step_or_stay_Some _ _ _ He).
  - assert (∃ s', step (Collect 0) s = Some s' ∧ loop s' = Broken
                  ∧ written s' = Some ∅) as (s' & Hc & Hl' & Hw).
    { simpl. unfold collect_step. rewrite Hl, Hf, Hy, Hflag. simpl.
      eexists. split; [done|]. split; [done|].
      unfold written, all_done. simpl. rewrite ?Hf, ?Hres. simpl.
      rewrite (proj2 (forallb_forall _ _)); [done|].
      intros f [-> _]%list_elem_of_In%elem_of_replicate. done. }
    assert (step EndLoop s' = None) as He.
    { simpl. by rewrite Hl'. }
    rewrite !run_cons, (step_or_stay_Some _ _ _ Hc).
    unfold step_or_stay. by rewrite He.
Qed.

(** C6: when the flag is set before dispatch starts then, for every list
    of batches and however the pool threads and the main thread interleave,
    the results stay empty and no request is posted; and the run can come
    to its end, where it writes the empty set. *)
Theorem cancelled_before_dispatch V bs :
  (∀ sched,
     results (run sched (dispatch V bs true)) = ∅
     ∧ network_calls (run sched (dispatch V bs true)) = []
     ∧ (∀ R, written (run sched (dispatch V bs true)) = Some R → R = ∅))
  ∧ ∃ sched, written (run sched (dispatch V bs true)) = Some ∅.
Proof.
  split.
  - intros sched.
    destruct (cancelled_inv_run sched _ (cancelled_inv_dispatch V bs))
      as (_ & Hres & Hnet & _).
    split; [done|]. split; [done|].
    intros R. unfold written. repeat case_match; congruence.
  - exists (drain_and_collect (length bs)). apply written_drain_and_collect.
Qed.

(** The response that [late_success] holds would have been absorbed. *)
Lemma late_success_absorbable :
  futures late_success !! 0 ≫= done
  = Some (Returned (Some [Item (Some [py "a.com"]) None]))
  ∧ py "a.com" ∈ absorb (input late_success) (results late_success)
                   (Some [Item (Some [py "a.com"]) None]).
Proof.
  split; [done|]. apply elem_of_absorb_Some. right. split; [set_solver|].
  eexists. split; [apply list_elem_of_here|]. simpl. set_solver.
Qed.

(** C10: when an iteration of the collection loop sees the flag set, it
    leaves the loop without absorbing the outcome it was given, and from
    then on no schedule changes the results, whatever the fetches that
    are still running return. *)
Theorem results_frozen_after_break s i s' :
  step (Collect i) s = Some s' →
  shutdown_flag s = true →
  loop s' = Broken
  ∧ results s' = results s
  ∧ pbar s' = pbar s
  ∧ ∀ sched, loop (run sched s') = Broken
             ∧ results (run sched s') = results s.
Proof.
  simpl. unfold collect_step. intros Hstep Hflag. rewrite Hflag in Hstep.
  assert (loop s' = Broken ∧ results s' = results s ∧ pbar s' = pbar s)
    as (Hl & Hr & Hp) by (repeat case_match; by simplify_eq).
  split; [done|]. split; [done|]. split; [done|].
  intros sched. destruct (run_past_loop sched s') as [-> ->]; [|done].
  by rewrite Hl.
Qed.

(** The theorem at [late_success]: the loop breaks and the response that
    lists [a.com] is never absorbed. *)
Lemma results_frozen_after_break_witness :
  ∃ s',
    step (Collect 0) late_success = Some s'
    ∧ shutdown_flag late_success = true
    ∧ results s' = ∅
    ∧ ∀ sched, results (run sched s') = ∅.
Proof.
  eexists. split; [reflexivity|]. split; [reflexivity|].
  pose proof (results_frozen_after_break late_success 0 _
                eq_refl eq_refl) as (_ & Hr & _ & Hrun).
  split; [exact Hr|]. intros sched. exact (proj2 (Hrun sched)).
Defined.

End PoolFacts.

(** C1: absorbing a response adds to the results exactly the domains of
    the validated set that some record lists under the relation selected
    for it: [employeeAt] if present and non-empty, else [clientAt] if
    present and non-empty, else none. [None], which is what a failed or
    cancelled fetch returns, adds nothing. A domain outside the validated
    set is in the results of no state of a run. *)
Theorem absorb_spec (V R : gset str) :
  (∀ items d,
     d ∈ absorb V R (Some items)
     ↔ d ∈ R ∨ (d ∈ V ∧ ∃ it, it ∈ items ∧ d ∈ selected_list it))
  ∧ absorb V R None = R
  ∧ (∀ bs flag sched d,
       d ∈ Pool.results (Pool.run sched (Pool.dispatch V bs flag)) → d ∈ V).
Proof.
  split; [apply elem_of_absorb_Some|]. split; [done|].
  intros bs flag sched d Hd.
  destruct (PoolFacts.run_results_within sched (Pool.dispatch V bs flag))
    as [_ Hsub]; [done|].
  by apply Hsub.
Qed.

(** * Further properties *)

(** ** The normalizer *)

(** X1: [clean_domain] only cuts: the raw string is the cleaned one with
    [www.] or nothing in front of it and a dot or nothing behind it, and
    [www.] was cut exactly when the raw string started with it; so at most
    five characters go. *)
Theorem clean_domain_decompose d :
  ∃ pre suf,
    d = pre ++ clean_domain d ++ suf
    ∧ (pre = [] ∨ pre = py "www.")
    ∧ (suf = [] ∨ suf = py ".")
    ∧ (pre = py "www." ↔ startswith (py "www.") d = true)
    ∧ length d - 5 ≤ length (clean_domain d) ≤ length d.
Proof.
  unfold clean_domain, slice_from.
  destruct (startswith (py "www.") d) eqn:Hw.
  - apply startswith_spec in Hw as [t ->].
    change (drop 4 (py "www." ++ t)) with t.
    destruct (endswith (py ".") t) eqn:Hd.
    + apply endswith_spec in Hd as [t' ->].
      change (py ".") with [ord "."]. rewrite slice_drop_last_app.
      exists (py "www."), (py "."). rewrite !length_app. simpl.
      repeat split; auto; lia.
    + exists (py "www."), []. rewrite app_nil_r, !length_app. simpl.
      repeat split; auto; lia.
  - destruct (endswith (py ".") d) eqn:Hd.
    + apply endswith_spec in Hd as [t' ->].
      change (py ".") with [ord "."]. rewrite slice_drop_last_app.
      exists [], (py "."). rewrite !length_app. simpl.
      repeat split; auto; try lia; try done.
    + exists [], []. rewrite app_nil_r. simpl.
      repeat split; auto; try lia; try done.
Qed.

(** ** The shape of a valid domain *)

Section shape.
Implicit Types d s l tld : str.
Implicit Types labels : list str.

Lemma lang_star_induction (P : str → Prop) r :
  P [] →
  (∀ s1 s2, lang r s1 → lang (Star r) s2 → P s2 → P (s1 ++ s2)) →
  ∀ s, lang (Star r) s → P s.
Proof.
  intros Hnil Hcons s H. remember (Star r) as r' eqn:Heq.
  induction H as [| | | | | |r0 s1 s2 H1 _ H2 IH]; try discriminate.
  - done.
  - injection Heq as ->. apply Hcons; auto.
Qed.

Lemma lang_star_class p s :
  lang (Star (Class p)) s ↔ Forall (λ c, p c = true) s.
Proof.
  split.
  - apply lang_star_induction; [constructor|].
    intros s1 s2 (c & -> & Hc)%lang_class_inv _ IH. by constructor.
  - induction 1 as [|c s Hc _ IH]; [constructor|].
    apply (lang_star_cons _ [c] s); [by constructor | done].
Qed.

Lemma lang_plus_class p s :
  lang (Plus (Class p)) s ↔ s ≠ [] ∧ Forall (λ c, p c = true) s.
Proof.
  split.
  - intros (s1 & s2 & -> & (c & -> & Hc)%lang_class_inv & H2)%lang_cat_inv.
    split; [done|]. constructor; [done|]. by apply lang_star_class.
  - intros [Hne Hall]. destruct Hall as [|c s Hc Hall]; [done|].
    apply (lang_cat _ _ [c] s); [by constructor | by apply lang_star_class].
Qed.

Lemma lang_exactly_class_2 p n s :
  length s = n → Forall (λ c, p c = true) s → lang (exactly (Class p) n) s.
Proof.
  intros <- Hall. induction Hall as [|c s Hc _ IH]; simpl; [constructor|].
  apply (lang_cat _ _ [c] s); [by constructor | done].
Qed.

Lemma lang_upto_class_2 p n s :
  length s ≤ n → Forall (λ c, p c = true) s → lang (upto (Class p) n) s.
Proof.
  intros Hlen Hall. revert n Hlen.
  induction Hall as [|c s Hc _ IH]; intros n Hlen.
  - destruct n; simpl; [constructor | apply lang_alt_l; constructor].
  - destruct n as [|n]; simpl in *; [lia|].
    apply lang_alt_r, (lang_cat _ _ [c] s); [by constructor|].
    apply IH. lia.
Qed.

Lemma lang_rep_class_iff p m n s :
  m ≤ n →
  lang (Rep (Class p) m n) s
  ↔ m ≤ length s ≤ n ∧ Forall (λ c, p c = true) s.
Proof.
  intros Hmn. split.
  - intros [? ?]%lang_rep_class. split; [lia | done].
  - intros [Hlen Hall]. rewrite <- (take_drop m s).
    rewrite <- (take_drop m s) in Hall.
    apply Forall_app in Hall as [H1 H2].
    apply lang_cat.
    + apply lang_exactly_class_2; [|done]. rewrite length_take. lia.
    + apply lang_upto_class_2; [|done]. rewrite length_drop. lia.
Qed.

(** The words of [[a-zA-Z0-9-_]+\.]: a non-empty label and a dot. *)
Lemma lang_group s :
  lang (Cat (Plus (Class cls_label)) (Class cls_dot)) s
  ↔ ∃ l, s = l ++ [ord "."] ∧ l ≠ []
         ∧ Forall (λ c, cls_label c = true) l.
Proof.
  split.
  - intros (s1 & s2 & -> & [? ?]%lang_plus_class
            & (c & -> & ->%cls_dot_spec)%lang_class_inv)%lang_cat_inv.
    by exists s1.
  - intros (l & -> & Hne & Hall). apply lang_cat.
    + by apply lang_plus_class.
    + constructor. by apply cls_dot_spec.
Qed.

Lemma lang_star_group s :
  lang (Star (Cat (Plus (Class cls_label)) (Class cls_dot))) s
  ↔ ∃ labels,
      s = join_labels labels
      ∧ Forall (λ l, l ≠ [] ∧ Forall (λ c, cls_label c = true) l) labels.
Proof.
  split.
  - revert s.
    apply (lang_star_induction
             (λ s, ∃ labels,
                s = join_labels labels
                ∧ Forall (λ l, l ≠ [] ∧ Forall (λ c, cls_label c = true) l)
                         labels)).
    + by exists [].
    + intros s1 s2 (l & -> & Hne & Hall)%lang_group _ (labels & -> & Hls).
      exists (l :: labels). split; [done|]. by constructor.
  - intros (labels & -> & Hls).
    induction Hls as [|l labels [Hne Hall] _ IH]; [constructor|].
    unfold join_labels. simpl. apply lang_star_cons; [|exact IH].
    apply lang_group. by exists l.
Qed.

Lemma lang_domain_body d :
  lang domain_body d
  ↔ ∃ labels tld, well_formed labels tld ∧ d = join_labels labels ++ tld.
Proof.
  unfold domain_body, well_formed. split.
  - intros (s1 & s2 & -> & H1 & H2)%lang_cat_inv.
    apply lang_rep_class_iff in H2 as [Hlen Htld]; [|lia].
    apply lang_cat_inv in H1 as (g & s & -> & (l & -> & Hne & Hl)%lang_group
                                 & (labels & -> & Hls)%lang_star_group).
    exists (l :: labels), s2. split; [|done].
    split; [done|]. split; [by constructor|]. done.
  - intros (labels & tld & (Hne & Hls & Htld & Hlen) & ->).
    apply lang_cat; [|by apply lang_rep_class_iff; [lia|]].
    destruct Hls as [|l labels [Hl Hall] Hls]; [done|].
    unfold join_labels. simpl. apply lang_cat.
    + apply lang_group. by exists l.
    + apply lang_star_group. by exists labels.
Qed.

Lemma cls_label_spec c :
  cls_label c = true
  ↔ (97 ≤ c ≤ 122 ∨ 65 ≤ c ≤ 90 ∨ 48 ≤ c ≤ 57 ∨ c = 45 ∨ c = 95
     ∨ c = 304 ∨ c = 305 ∨ c = 383 ∨ c = 8490)%N.
Proof.
  unfold cls_label, in_range, ignorecase_extra.
  change (ord "a") with 97%N. change (ord "z") with 122%N.
  change (ord "A") with 65%N. change (ord "Z") with 90%N.
  change (ord "0") with 48%N. change (ord "9") with 57%N.
  change (ord "-") with 45%N. change (ord "_") with 95%N.
  rewrite !orb_true_iff, !andb_true_iff, !N.leb_le, !N.eqb_eq. lia.
Qed.

Lemma cls_alpha_label c : cls_alpha c = true → cls_label c = true.
Proof. rewrite cls_alpha_spec, cls_label_spec. lia. Qed.

(** A well-formed string starts with a character of a label. *)
Lemma well_formed_head labels tld s :
  well_formed labels tld →
  ∃ c rest, join_labels labels ++ tld ++ s = c :: rest ∧ cls_label c = true.
Proof.
  intros (Hne & Hls & _). destruct Hls as [|l labels [Hl Hall] _]; [done|].
  destruct Hall as [|c l Hc _]; [done|].
  unfold join_labels. simpl. eauto.
Qed.

Lemma lookahead_label_head c rest :
  cls_label c = true → lookahead_not_scheme (c :: rest) = true.
Proof.
  rewrite cls_label_spec. intros Hc. assert (c ≠ 58%N) by lia.
  unfold lookahead_not_scheme. change (py "://") with (58%N :: py "//").
  cbn [startswith]. by destruct (N.eqb_spec 58 c).
Qed.

Lemma match_to_dollar_body d :
  match_to_dollar domain_body d = true
  ↔ ∃ labels tld,
      well_formed labels tld
      ∧ (d = join_labels labels ++ tld
         ∨ d = join_labels labels ++ tld ++ [LF]).
Proof.
  unfold match_to_dollar.
  rewrite orb_true_iff, andb_true_iff, !fullmatch_spec. split.
  - intros [H|[Hlf H]].
    + apply lang_domain_body in H as (labels & tld & ? & ->). eauto.
    + apply endswith_spec in Hlf as [d' ->].
      rewrite slice_drop_last_app in H.
      apply lang_domain_body in H as (labels & tld & ? & ->).
      exists labels, tld. split; [done|]. right. by rewrite <- app_assoc.
  - intros (labels & tld & Hwf & [-> | ->]).
    + left. apply lang_domain_body. eauto.
    + right. rewrite app_assoc. split.
      * apply endswith_spec. eauto.
      * rewrite slice_drop_last_app. apply lang_domain_body. eauto.
Qed.

(** X2: the negative lookahead [(?!:\/\/)] of the pattern decides nothing:
    the predicate is the match of the rest of the pattern alone. *)
Theorem is_valid_domain_lookahead_redundant d :
  is_valid_domain d = match_to_dollar domain_body d.
Proof.
  unfold is_valid_domain.
  destruct (match_to_dollar domain_body d) eqn:Hm;
    [|by rewrite andb_false_r].
  rewrite andb_true_r.
  apply match_to_dollar_body in Hm as (labels & tld & Hwf & Hd).
  destruct (well_formed_head labels tld [] Hwf) as (c & rest & Heq & Hc).
  rewrite app_nil_r in Heq.
  destruct Hd as [-> | ->].
  - rewrite Heq. by apply lookahead_label_head.
  - rewrite app_assoc, Heq. simpl. by apply lookahead_label_head.
Qed.

Lemma is_valid_domain_iff d :
  is_valid_domain d = true
  ↔ ∃ labels tld,
      well_formed labels tld
      ∧ (d = join_labels labels ++ tld
         ∨ d = join_labels labels ++ tld ++ [LF]).
Proof.
  unfold is_valid_domain. rewrite andb_true_iff, match_to_dollar_body.
  split; [by intros [_ ?]|].
  intros (labels & tld & Hwf & Hd). split; [|eauto].
  destruct (well_formed_head labels tld [] Hwf) as (c & rest & Heq & Hc).
  rewrite app_nil_r in Heq.
  destruct Hd as [-> | ->].
  - rewrite Heq. by apply lookahead_label_head.
  - rewrite app_assoc, Heq. simpl. by apply lookahead_label_head.
Qed.

(** X3: the predicate accepts exactly the strings made of one or more
    non-empty labels over [[a-zA-Z0-9-_]] (and the four letters that
    [re.IGNORECASE] adds), each followed by a dot, then 2 to 15 letters,
    then nothing or one line feed. *)
Theorem is_valid_domain_characterised d :
  is_valid_domain d = true
  ↔ ∃ labels tld,
      well_formed labels tld
      ∧ (d = join_labels labels ++ tld
         ∨ d = join_labels labels ++ tld ++ [LF]).
Proof. apply is_valid_domain_iff. Qed.

Lemma join_labels_cons l labels :
  join_labels (l :: labels) = (l ++ [ord "."]) ++ join_labels labels.
Proof. done. Qed.

Lemma Forall_join_labels (P : char → Prop) labels :
  P (ord ".") → Forall (Forall P) labels → Forall P (join_labels labels).
Proof.
  intros Hdot. unfold join_labels.
  induction 1 as [|l labels Hl _ IH]; simpl; [constructor|].
  rewrite <- app_assoc. apply Forall_app. split; [done|].
  by constructor.
Qed.

(** X4: a valid domain has at least 4 characters, holds a dot, starts with
    a character of a label, and holds no character that is not of a
    label, a dot or the line feed: a string with a space, a colon or a
    slash is never valid. *)
Theorem is_valid_domain_characters d :
  is_valid_domain d = true →
  4 ≤ length d
  ∧ ord "." ∈ d
  ∧ (∃ c rest, d = c :: rest ∧ cls_label c = true)
  ∧ Forall (λ c, cls_label c = true ∨ c = ord "." ∨ c = LF) d.
Proof.
  intros (labels & tld & Hwf & Hd)%is_valid_domain_iff.
  pose proof Hwf as (Hne & Hls & Htld & Hlen).
  assert (Hbody : Forall (λ c, cls_label c = true ∨ c = ord "." ∨ c = LF)
                         (join_labels labels ++ tld)).
  { apply Forall_app. split.
    - apply Forall_join_labels; [auto|].
      eapply Forall_impl; [exact Hls|]. intros l [_ Hl].
      eapply Forall_impl; [exact Hl|]. auto.
    - eapply Forall_impl; [exact Htld|]. intros c Hc. left.
      by apply cls_alpha_label. }
  assert (Hdot : ord "." ∈ join_labels labels ∧ 2 ≤ length (join_labels labels)).
  { destruct Hls as [|l labels [Hl _] _]; [done|].
    rewrite join_labels_cons, !length_app, !elem_of_app.
    split; [left; right; apply list_elem_of_here|].
    destruct l; [done|]. cbn [length]. lia. }
  destruct Hdot as [Hdot Hjl].
  destruct (well_formed_head labels tld [] Hwf) as (c & rest & Heq & Hc).
  rewrite app_nil_r in Heq.
  destruct Hd as [-> | ->].
  - rewrite length_app, elem_of_app. split; [lia|]. split; [auto|].
    split; [|done]. eauto.
  - rewrite app_assoc, !length_app, !elem_of_app, Forall_app.
    split; [lia|]. split; [auto|]. split.
    + rewrite Heq. simpl. eauto.
    + split; [done|]. constructor; [auto | constructor].
Qed.

Lemma is_valid_domain_characters_witness :
  is_valid_domain (py "example.com") = true ∧ 4 ≤ length (py "example.com").
Proof.
  split; [reflexivity|].
  exact (proj1 (is_valid_domain_characters (py "example.com") eq_refl)).
Defined.
End shape.

(** ** Loading the input *)

Lemma clean_loop_log_acc original acc :
  (fold_left clean_step original acc).2
  = acc.2 ++ omap (λ e, match e with
                        | JNonString repr => Some (WarnNonString repr)
                        | JString _ => None
                        end) original.
Proof.
  revert acc. induction original as [|e original IH]; intros acc; simpl.
  - by rewrite app_nil_r.
  - rewrite IH. destruct e; simpl; [done|]. by rewrite <- app_assoc.
Qed.

(** X5: the loading loop accounts for every element of the input: a string
    gives one cleaned domain, anything else gives one warning, in the
    order of the input; so the cleaned domains and the warnings together
    are as many as the elements, and an input of strings only gives no
    warning. *)
Theorem clean_loop_accounts original :
  (clean_loop original).1 = omap cleaned_entry original
  ∧ (clean_loop original).2
    = omap (λ e, match e with
                 | JNonString repr => Some (WarnNonString repr)
                 | JString _ => None
                 end) original
  ∧ length (clean_loop original).1 + length (clean_loop original).2
    = length original
  ∧ (∀ strs, clean_loop (JString <$> strs) = (clean_domain <$> strs, [])).
Proof.
  assert (H1 : (clean_loop original).1 = omap cleaned_entry original)
    by (unfold clean_loop; by rewrite clean_loop_acc).
  assert (H2 : (clean_loop original).2
    = omap (λ e, match e with
                 | JNonString repr => Some (WarnNonString repr)
                 | JString _ => None
                 end) original)
    by (unfold clean_loop; by rewrite clean_loop_log_acc).
  split; [done|]. split; [done|]. split.
  - rewrite H1, H2. clear. induction original as [|[] original IH];
      cbn in *; [done| |]; lia.
  - intros strs. unfold clean_loop.
    rewrite (surjective_pairing (fold_left _ _ _)).
    rewrite clean_loop_acc, clean_loop_log_acc. simpl. f_equal.
    + induction strs as [|s strs IH]; simpl; [done|]. by f_equal.
    + induction strs as [|s strs IH]; simpl; done.
Qed.

Lemma size_list_to_set_le (l : list str) :
  size (list_to_set l : gset str) ≤ length l.
Proof.
  apply submseteq_length, NoDup_submseteq; [apply NoDup_elements|].
  intros x. rewrite elem_of_elements. apply elem_of_list_to_set.
Qed.

Lemma input_domains_app a b :
  input_domains (a ++ b) = input_domains a ∪ input_domains b.
Proof.
  apply set_eq. intros d.
  rewrite elem_of_union, !elem_of_input_domains. split.
  - intros [Hv (s & [?|?]%elem_of_app & ->)]; [left|right]; eauto.
  - intros [[Hv (s & ? & ->)]|[Hv (s & ? & ->)]]; (split; [done|]);
      exists s; rewrite elem_of_app; auto.
Qed.

(** X6: the validated set of two inputs put together is the union of their
    validated sets; it does not depend on the order of the input or on
    repetitions in it; an element that is not a string changes nothing; and
    the set has at most as many members as the input has elements. *)
Theorem input_domains_compose a b :
  input_domains (a ++ b) = input_domains a ∪ input_domains b
  ∧ (a ≡ₚ b → input_domains a = input_domains b)
  ∧ input_domains (a ++ a) = input_domains a
  ∧ (∀ repr, input_domains (JNonString repr :: a) = input_domains a)
  ∧ size (input_domains a) ≤ length a.
Proof.
  split; [apply input_domains_app|]. split; [|split; [|split]].
  - intros Hp. apply set_eq. intros d. rewrite !elem_of_input_domains.
    by setoid_rewrite Hp.
  - by rewrite input_domains_app, union_idemp_L.
  - intros repr. apply set_eq. intros d. rewrite !elem_of_input_domains.
    split; intros [Hv (s & Hs & ->)]; (split; [done|]); exists s;
      (split; [|done]).
    + by apply elem_of_cons in Hs as [?|?].
    + by apply list_elem_of_further.
  - unfold input_domains.
    etrans; [apply size_list_to_set_le|].
    etrans; [apply length_filter|].
    rewrite cleaned_domains_spec. clear.
    induction a as [|[] a IH]; cbn in *; lia.
Qed.

(** A valid domain that does not start with [www.] is left as it is. *)
Lemma clean_domain_valid d :
  is_valid_domain d = true → startswith (py "www.") d = false →
  clean_domain d = d.
Proof.
  intros Hv Hw. apply clean_domain_fixed. split; [done|].
  by apply is_valid_domain_no_trailing_dot.
Qed.

(** X7: when no member of a validated set starts with [www.], validating
    the members again gives the same set. *)
Theorem input_domains_stable original :
  (∀ d, d ∈ input_domains original → startswith (py "www.") d = false) →
  input_domains (JString <$> elements (input_domains original))
  = input_domains original.
Proof.
  intros Hwww. apply set_eq. intros d.
  rewrite (elem_of_input_domains (JString <$> _)). split.
  - intros [Hv (s & Hs & ->)].
    apply list_elem_of_fmap in Hs as (s' & [= <-] & Hs').
    apply elem_of_elements in Hs'.
    rewrite clean_domain_valid; [done| |by apply Hwww].
    by apply elem_of_input_domains in Hs' as [? _].
  - intros Hd. pose proof Hd as [Hv _]%elem_of_input_domains.
    split; [done|]. exists d. split.
    + apply list_elem_of_fmap. exists d. split; [done|].
      by apply elem_of_elements.
    + symmetry. apply clean_domain_valid; [done | by apply Hwww].
Qed.

Lemma input_domains_stable_witness :
  input_domains
    (JString <$> elements (input_domains [JString (py "www.a.com.")]))
  = input_domains [JString (py "www.a.com.")].
Proof.
  apply input_domains_stable. intros d Hd.
  assert (input_domains [JString (py "www.a.com.")] = {[ py "a.com" ]}) as Heq.
  { apply (bool_decide_unpack _). by vm_compute. }
  rewrite Heq in Hd. apply elem_of_singleton in Hd as ->. reflexivity.
Defined.

(** ** Batching *)

Lemma py_range_aux_lookup step fuel i stop k :
  0 < step → stop - i ≤ fuel →
  py_range_aux fuel i stop step !! k
  = if decide (i + k * step < stop) then Some (i + k * step) else None.
Proof.
  intros Hstep. revert i k.
  induction fuel as [|fuel IH]; intros i k Hfuel; simpl.
  - rewrite decide_False by nia. done.
  - destruct (Nat.ltb_spec i stop) as [Hlt|Hge].
    + destruct k as [|k]; simpl.
      * rewrite decide_True by lia. f_equal. lia.
      * rewrite IH by lia.
        destruct (decide (i + step + k * step < stop));
          [rewrite decide_True by lia | rewrite decide_False by lia];
          [f_equal; lia | done].
    + rewrite decide_False by nia. done.
Qed.

Lemma batches_lookup (X : gset str) k :
  batches X !! k
  = if decide (k * 50 < size X)
    then Some (take 50 (drop (k * 50) (elements X)))
    else None.
Proof.
  unfold batches, py_range. rewrite list_lookup_fmap.
  rewrite py_range_aux_lookup by lia. simpl.
  destruct (decide (k * 50 < size X)); [|done].
  simpl. by rewrite slice_take_drop.
Qed.

(** X8: batch [k] holds the elements 50k to 50k + 49 of the set's list; no
    batch is empty, none has more than 50 domains, and every batch but the
    last has exactly 50. *)
Theorem batches_sizes (X : gset str) k b :
  batches X !! k = Some b →
  b = take 50 (drop (k * 50) (elements X))
  ∧ 1 ≤ length b ≤ 50
  ∧ (S k < length (batches X) → length b = 50).
Proof.
  rewrite batches_lookup. destruct (decide (k * 50 < size X)) as [Hk|]; [|done].
  intros [= <-]. split; [done|].
  rewrite length_take, length_drop.
  change (length (elements X)) with (size X).
  split; [lia|]. intros Hnext.
  apply lookup_lt_is_Some_2 in Hnext as [b' Hb'].
  rewrite batches_lookup in Hb'.
  destruct (decide (S k * 50 < size X)); [lia | done].
Qed.

Lemma batches_sizes_witness :
  batches {[ py "a.com" ]} !! 0 = Some [py "a.com"]
  ∧ 1 ≤ length [py "a.com"] ≤ 50.
Proof.
  assert (batches {[ py "a.com" ]} !! 0 = Some [py "a.com"]) as H
    by (vm_compute; reflexivity).
  split; [exact H|].
  exact (proj1 (proj2 (batches_sizes _ _ _ H))).
Defined.

(** X9: the domain at position [p] of the set's list is the domain at
    offset [p mod 50] of batch [p / 50], and past the end of the list there
    is no such batch entry. *)
Theorem batches_position (X : gset str) p :
  batches X !! (p / 50) ≫= (λ b, b !! (p mod 50)) = elements X !! p.
Proof.
  rewrite batches_lookup.
  pose proof (Nat.div_mod_eq p 50) as Hp.
  assert (p mod 50 < 50) as Hr by (apply Nat.mod_upper_bound; lia).
  destruct (decide (p / 50 * 50 < size X)) as [Hq|Hq];
    cbn [mbind option_bind].
  - rewrite lookup_take_lt by lia. rewrite lookup_drop. f_equal. lia.
  - symmetry. apply lookup_ge_None_2.
    change (length (elements X)) with (size X). lia.
Qed.

(** ** Aggregation *)

Lemma absorb_union (V R : gset str) o : absorb V R o = R ∪ absorb V ∅ o.
Proof.
  destruct o as [items|]; [|simpl; by rewrite (right_id_L ∅ (∪))].
  apply set_eq. intros d.
  rewrite elem_of_union, !elem_of_absorb_Some, elem_of_empty. tauto.
Qed.

(** X10: absorbing never removes a domain; absorbing the same outcome twice
    adds nothing the second time; and absorbing two outcomes in either
    order gives the same results, so the results do not depend on the
    order in which the fetches complete. *)
Theorem absorb_algebra (V R : gset str) o1 o2 :
  R ⊆ absorb V R o1
  ∧ absorb V (absorb V R o1) o1 = absorb V R o1
  ∧ absorb V (absorb V R o1) o2 = absorb V (absorb V R o2) o1
  ∧ absorb V R o1 = R ∪ absorb V ∅ o1.
Proof.
  split; [|split; [|split]].
  - rewrite absorb_union. apply union_subseteq_l.
  - rewrite (absorb_union V (absorb V R o1)), (absorb_union V R o1).
    by rewrite <- (assoc_L (∪)), (idemp_L (∪)).
  - rewrite (absorb_union V (absorb V R o1)), (absorb_union V R o1).
    rewrite (absorb_union V (absorb V R o2)), (absorb_union V R o2).
    rewrite <- !(assoc_L (∪)). f_equal. apply (comm_L (∪)).
  - apply absorb_union.
Qed.

(** X11: what a record holds under [clientAt] has no effect when its
    [employeeAt] list holds a domain: the [elif] branch is not reached, and
    a domain that the record lists only under [clientAt] is not absorbed
    from it. *)
Theorem absorb_employee_first (V R : gset str) front back x l c c' :
  absorb V R (Some (front ++ Item (Some (x :: l)) c :: back))
  = absorb V R (Some (front ++ Item (Some (x :: l)) c' :: back)).
Proof.
  apply set_eq. intros d. rewrite !elem_of_absorb_Some.
  assert (Hswap : ∀ c1 c2,
    (∃ it, it ∈ front ++ Item (Some (x :: l)) c1 :: back
           ∧ d ∈ selected_list it) →
    (∃ it, it ∈ front ++ Item (Some (x :: l)) c2 :: back
           ∧ d ∈ selected_list it)).
  { intros c1 c2 (it & Hit & Hd).
    apply elem_of_app in Hit as [Hit|Hit].
    - exists it. rewrite elem_of_app. auto.
    - apply elem_of_cons in Hit as [->|Hit].
      + exists (Item (Some (x :: l)) c2). rewrite elem_of_app, elem_of_cons.
        auto.
      + exists it. rewrite elem_of_app, elem_of_cons. auto. }
  split; (intros [?|[? H]]; [by left | right; split; [done|]]);
    by eapply Hswap.
Qed.

(** ** Writing the results *)

Lemma app_inj_separator {A} (x : A) a b r r' :
  x ∉ a → x ∉ b → a ++ x :: r = b ++ x :: r' → a = b ∧ r = r'.
Proof.
  revert b. induction a as [|y a IH]; intros b Ha Hb Heq.
  - destruct b as [|z b]; simpl in Heq.
    + by injection Heq as ->.
    + injection Heq as -> _. exfalso. apply Hb, list_elem_of_here.
  - destruct b as [|z b]; simpl in Heq.
    + injection Heq as -> _. exfalso. apply Ha, list_elem_of_here.
    + injection Heq as -> Heq.
      apply IH in Heq as [-> ->]; [done| |].
      * intros ?. apply Ha. by apply list_elem_of_further.
      * intros ?. apply Hb. by apply list_elem_of_further.
Qed.

Lemma write_lines_cons d l : write_lines (d :: l) = d ++ LF :: write_lines l.
Proof. unfold write_lines. simpl. by rewrite <- app_assoc. Qed.

(** A valid domain is a non-empty string without line feed, alone or
    followed by one line feed. *)
Lemma is_valid_domain_line d :
  is_valid_domain d = true →
  ∃ c t, Forall (λ x, x ≠ LF) (c :: t)
         ∧ (d = c :: t ∨ d = (c :: t) ++ [LF]).
Proof.
  intros (labels & tld & Hwf & Hd)%is_valid_domain_iff.
  pose proof Hwf as (Hne & Hls & Htld & Hlen).
  assert (Hbody : Forall (λ c, c ≠ LF) (join_labels labels ++ tld)).
  { apply Forall_app. split.
    - apply Forall_join_labels; [done|].
      eapply Forall_impl; [exact Hls|]. intros l [_ Hl].
      eapply Forall_impl; [exact Hl|]. by intros c Hc ->.
    - eapply Forall_impl; [exact Htld|]. by intros c Hc ->. }
  destruct (well_formed_head labels tld [] Hwf) as (c & rest & Heq & Hc).
  rewrite app_nil_r in Heq. rewrite Heq in Hbody.
  exists c, rest. split; [done|].
  destruct Hd as [-> | ->]; [left | right]; [done|].
  by rewrite app_assoc, Heq.
Qed.

(** The line of a valid domain in the file: its part without line feed, a
    line feed, and a second one if the domain ends in a line feed. *)
Lemma write_lines_valid_cons d l :
  is_valid_domain d = true →
  ∃ c t, Forall (λ x, x ≠ LF) (c :: t)
         ∧ ((d = c :: t
             ∧ write_lines (d :: l) = (c :: t) ++ LF :: write_lines l)
            ∨ (d = (c :: t) ++ [LF]
               ∧ write_lines (d :: l)
                 = (c :: t) ++ LF :: LF :: write_lines l)).
Proof.
  intros (c & t & Hlf & Hd)%is_valid_domain_line. exists c, t.
  split; [done|]. rewrite write_lines_cons.
  destruct Hd as [-> | ->]; [by left | right].
  split; [done|]. by rewrite <- app_assoc.
Qed.

Lemma write_lines_valid_head l :
  Forall (λ d, is_valid_domain d = true) l →
  l = [] ∨ ∃ c rest, c ≠ LF ∧ write_lines l = c :: rest.
Proof.
  intros [|d l' Hd _]; [by left|]. right.
  destruct (write_lines_valid_cons d l' Hd)
    as (c & t & Hlf & [[_ ->]|[_ ->]]);
    apply Forall_cons in Hlf as [? _]; simpl; eauto.
Qed.

Lemma Forall_ne_not_elem (x : char) (l : str) :
  Forall (λ y, y ≠ x) l → x ∉ l.
Proof. intros Hall Hin. eapply Forall_forall in Hall; [|exact Hin]. done. Qed.

Lemma write_lines_injective l1 l2 :
  Forall (λ d, is_valid_domain d = true) l1 →
  Forall (λ d, is_valid_domain d = true) l2 →
  write_lines l1 = write_lines l2 → l1 = l2.
Proof.
  intros H1. revert l2.
  induction H1 as [|d1 l1 Hd1 Hl1 IH]; intros l2 H2 Heq.
  - destruct H2 as [|d2 l2 Hd2 _]; [done|].
    destruct (write_lines_valid_cons d2 l2 Hd2)
      as (c & t & _ & [[_ Hw]|[_ Hw]]); rewrite Hw in Heq; discriminate.
  - destruct H2 as [|d2 l2 Hd2 Hl2].
    { destruct (write_lines_valid_cons d1 l1 Hd1)
        as (c & t & _ & [[_ Hw]|[_ Hw]]); rewrite Hw in Heq; discriminate. }
    destruct (write_lines_valid_cons d1 l1 Hd1)
      as (c1 & t1 & Hlf1%Forall_ne_not_elem & Hc1).
    destruct (write_lines_valid_cons d2 l2 Hd2)
      as (c2 & t2 & Hlf2%Forall_ne_not_elem & Hc2).
    destruct Hc1 as [[-> Hw1]|[-> Hw1]], Hc2 as [[-> Hw2]|[-> Hw2]];
      rewrite Hw1, Hw2 in Heq;
      apply app_inj_separator in Heq as [Hu Hrest]; try done.
    + rewrite Hu. f_equal. by apply IH.
    + exfalso.
      destruct (write_lines_valid_head l1 Hl1) as [->|(a & r & Ha & Hw)].
      * discriminate.
      * rewrite Hw in Hrest. congruence.
    + exfalso.
      destruct (write_lines_valid_head l2 Hl2) as [->|(a & r & Ha & Hw)].
      * discriminate.
      * rewrite Hw in Hrest. congruence.
    + rewrite Hu. f_equal. injection Hrest as Hrest. by apply IH.
Qed.

(** X12: the file written from a set of valid domains determines the set:
    two sets of valid domains that give the same file are equal. The file
    has a line feed after every domain, so its length is the sum of the
    lengths of the domains and their number. *)
Theorem results_file_injective (R1 R2 : gset str) :
  (∀ d, d ∈ R1 → is_valid_domain d = true) →
  (∀ d, d ∈ R2 → is_valid_domain d = true) →
  (results_file R1 = results_file R2 → R1 = R2)
  ∧ length (results_file R1)
    = sum_list (length <$> elements R1) + size R1.
Proof.
  intros H1 H2. split.
  - intros Heq. apply write_lines_injective in Heq.
    + apply set_eq. intros d. by rewrite <- !elem_of_elements, Heq.
    + apply Forall_forall. intros d ?%elem_of_elements. by apply H1.
    + apply Forall_forall. intros d ?%elem_of_elements. by apply H2.
  - unfold results_file, size, set_size. simpl. clear.
    induction (elements R1) as [|d l IH]; [done|].
    rewrite write_lines_cons, length_app. cbn. rewrite IH. lia.
Qed.

Lemma results_file_injective_witness :
  length (results_file {[ py "a.com" ]})
  = sum_list (length <$> elements ({[ py "a.com" ]} : gset str))
    + size ({[ py "a.com" ]} : gset str).
Proof.
  assert (∀ d, d ∈ ({[ py "a.com" ]} : gset str) → is_valid_domain d = true)
    as H by (by intros d ->%elem_of_singleton).
  exact (proj2 (results_file_injective _ _ H H)).
Defined.

(** ** One call of the fetcher *)

(** What [guarded] says of a trace, operation by operation. *)
Lemma guarded_spec prev t :
  guarded prev t = true →
  ∀ t1 e t2, t = t1 ++ e :: t2 →
    (∀ payload r, e = EPost payload r →
       last (option_list prev ++ t1) = Some (EIsSet false))
    ∧ (e = EIsSet true → t2 = [])
    ∧ (∀ secs, e = ESleep secs → ∃ b t3, t2 = EIsSet b :: t3).
Proof.
  revert prev. induction t as [|x t IH]; intros prev Hg t1 e t2 Heq.
  - by destruct t1.
  - destruct t1 as [|y t1]; simpl in Heq; injection Heq as -> ->.
    + rewrite app_nil_r. split; [|split].
      * intros payload r ->. simpl in Hg.
        destruct prev as [[[]| | |]|]; try done.
      * intros ->. destruct t2 as [|z t2]; [done|]. simpl in Hg.
        destruct prev as [[[]| | |]|]; try done; by destruct z.
      * intros secs ->. destruct t2 as [|z t2]; simpl in Hg.
        -- destruct prev as [[[]| | |]|]; done.
        -- destruct z as [b| | |]; [eauto| | |];
             destruct prev as [[[]| | |]|]; done.
    + assert (guarded (Some y) (t1 ++ e :: t2) = true) as Hg'.
      { simpl in Hg. destruct prev as [[[]| | |]|], y; try done. }
      destruct (IH (Some y) Hg' t1 e t2 eq_refl) as (Hp & Hs & Hw).
      split; [|done]. intros payload r He.
      specialize (Hp payload r He). simpl in Hp.
      destruct prev; simpl; [|done].
      destruct t1; simpl in *; done.
Qed.

Ltac fetch_cases w :=
  unfold run_fetch, fetch_data; case_env w.

Lemma fetch_data_guarded_trace w batch index :
  guarded None (run_fetch w batch index).2 = true.
Proof. fetch_cases w; reflexivity. Qed.

(** X13: in every call, a post comes right after a read of the flag that
    found it unset; a read that finds the flag set is the last thing the
    call does; and a sleep is followed by a read of the flag, before
    anything else. *)
Theorem fetch_data_order w batch index t1 e t2 :
  (run_fetch w batch index).2 = t1 ++ e :: t2 →
  (∀ payload r, e = EPost payload r → last t1 = Some (EIsSet false))
  ∧ (e = EIsSet true → t2 = [])
  ∧ (∀ secs, e = ESleep secs → ∃ b t3, t2 = EIsSet b :: t3).
Proof.
  intros Heq.
  exact (guarded_spec None _ (fetch_data_guarded_trace w batch index)
                      t1 e t2 Heq).
Qed.

Lemma fetch_data_order_witness :
  last [EIsSet false; EIsSet false] = Some (EIsSet false).
Proof.
  exact (proj1 (fetch_data_order
                  (Env never_set (λ _, Response [])) [py "a.com"] 0
                  [EIsSet false; EIsSet false]
                  (EPost [py "a.com"] (Response [])) [] eq_refl)
               _ _ eq_refl).
Defined.

(** X14: every attempt of a call posts the batch it was given, unchanged,
    and a call sleeps 30 seconds at most in all. *)
Theorem fetch_data_payload w batch index :
  (∃ n, n ≤ 5 ∧ posts_of (run_fetch w batch index).2 = replicate n batch)
  ∧ sum_list (sleeps_of (run_fetch w batch index).2) ≤ 30.
Proof.
  fetch_cases w;
    (split;
     [match goal with
      | |- ∃ n, _ ∧ ?l = _ => exists (length l)
      end; split; [simpl; lia | reflexivity]
     | simpl; lia]).
Qed.

(** X15: a call logs one warning for every attempt that failed with a
    [RequestException], numbered from 1 and with the batch number
    [index + 1], and one error after the fifth failure; it logs nothing
    else. *)
Theorem fetch_data_log w batch index :
  logs_of (run_fetch w batch index).2
  = expected_log index (failures_of (run_fetch w batch index).2).
Proof. fetch_cases w; reflexivity. Qed.

(** Case analysis on what the environment answers, keeping the answers. *)
Ltac case_env_eq w :=
  unfold run_fetch, fetch_data;
  repeat (rewrite ?attempts_S; autorewrite with exec; cbn;
    match goal with
    | |- context [flag_read w ?n] => destruct (flag_read w n) eqn:?
    | |- context [response w ?n] => destruct (response w n) eqn:?
    end); autorewrite with exec; cbn.

(** X16: when the flag stays unset, the first [k] attempts ([k] at most 4)
    fail with a [RequestException] and the next one succeeds, the call
    returns that response after [k + 1] posts and the first [k] of the
    sleeps 2, 4, 8, 16. *)
Theorem fetch_data_succeeds_after w batch index k body :
  k ≤ 4 →
  (∀ n, n ≤ S k → flag_read w n = false) →
  (∀ j, j < k → ∃ e, response w j = RequestException e) →
  response w k = Response body →
  (run_fetch w batch index).1 = Returned (Some body)
  ∧ posts_of (run_fetch w batch index).2 = replicate (S k) batch
  ∧ sleeps_of (run_fetch w batch index).2 = take k [2; 4; 8; 16]
  ∧ terminal_of (run_fetch w batch index).2 = Succeeded.
Proof.
  intros Hk Hflag Hfail Hok.
  destruct k as [|[|[|[|[|k]]]]]; [..|lia];
    case_env_eq w;
    first
      [ exfalso;
        match goal with
        | H : flag_read w ?n = true |- _ =>
            rewrite Hflag in H by lia; discriminate
        | H : response w ?n = _ |- _ =>
            destruct (Hfail n) as [? He]; [lia|]; rewrite He in H;
            discriminate
        | H : response w ?n = _ |- _ => rewrite Hok in H; discriminate
        end
      | repeat split; first [reflexivity | congruence] ].
Qed.

Lemma fetch_data_succeeds_after_witness :
  (run_fetch (Env never_set
                  (responses [RequestException (Exn "timeout")]
                             (Response [Item (Some [py "a.com"]) None])))
             [py "a.com"] 0).1
  = Returned (Some [Item (Some [py "a.com"]) None]).
Proof.
  refine (proj1 (fetch_data_succeeds_after _ [py "a.com"] 0 1 _ _ _ _ _)).
  - lia.
  - reflexivity.
  - intros j Hj. assert (j = 0) as -> by lia. by eexists.
  - reflexivity.
Defined.

(** X17: when the flag is first seen set at the read number [r] of a call
    and the attempts before that failed with a [RequestException], the
    call makes [r - 1] attempts, posts nothing after it saw the flag,
    returns [None] and does not log that all attempts failed. The reads
    are numbered from 0; read 0 is the one on entry. *)
Theorem fetch_data_cancelled_at w batch index r :
  r ≤ 5 →
  (∀ n, n < r → flag_read w n = false) →
  flag_read w r = true →
  (∀ j, S j < r → ∃ e, response w j = RequestException e) →
  (run_fetch w batch index).1 = Returned None
  ∧ posts_of (run_fetch w batch index).2 = replicate (r - 1) batch
  ∧ sleeps_of (run_fetch w batch index).2 = take (r - 1) [2; 4; 8; 16]
  ∧ terminal_of (run_fetch w batch index).2 = Cancelled
  ∧ logs_of (run_fetch w batch index).2
    = expected_log index (failures_of (run_fetch w batch index).2)
  ∧ length (failures_of (run_fetch w batch index).2) = r - 1.
Proof.
  intros Hr Hflag Hset Hfail.
  destruct r as [|[|[|[|[|[|r]]]]]]; [..|lia];
    case_env_eq w;
    first
      [ exfalso;
        match goal with
        | H : flag_read w ?n = true |- _ =>
            rewrite Hflag in H by lia; discriminate
        | H : flag_read w ?n = false |- _ =>
            rewrite Hset in H; discriminate
        | H : response w ?n = _ |- _ =>
            destruct (Hfail n) as [? He]; [lia|]; rewrite He in H;
            discriminate
        end
      | repeat split; reflexivity ].
Qed.

Lemma fetch_data_cancelled_at_witness :
  (run_fetch (Env (λ n, bool_decide (2 ≤ n))
                  (λ _, RequestException (Exn "timeout")))
             [py "a.com"] 0).1
  = Returned None.
Proof.
  refine (proj1 (fetch_data_cancelled_at _ [py "a.com"] 0 2 _ _ _ _)).
  - lia.
  - intros n Hn. simpl. apply bool_decide_eq_false. lia.
  - reflexivity.
  - intros j Hj. by eexists.
Defined.

(** ** Invariants of the dispatch loop *)

Module PoolMore.
Import Pool PoolFacts PoolInv.

Lemma count_active_cons f fs :
  count_active (f :: fs) = Nat.b2n (active f) + count_active fs.
Proof.
  unfold count_active. destruct (active f) eqn:Hf.
  - by rewrite filter_cons_True.
  - rewrite filter_cons_False; [done | congruence].
Qed.

Lemma count_active_insert (fs : list future) (i : nat) f f' :
  fs !! i = Some f →
  count_active (<[i:=f']> fs) + Nat.b2n (active f)
  = count_active fs + Nat.b2n (active f').
Proof.
  revert i. induction fs as [|g fs IH]; intros [|i] Hi; simplify_eq/=.
  - rewrite !count_active_cons. lia.
  - rewrite !count_active_cons. specialize (IH i Hi). lia.
Qed.

Lemma posts_only_attempts b todo attempt index :
  posts_only b (attempts todo attempt b index).
Proof.
  revert attempt. induction todo as [|todo IH]; intros attempt.
  - constructor.
  - rewrite attempts_S. constructor. intros [|]; [constructor|].
    constructor. intros [body| |e|e]; try constructor.
    destruct (attempt =? 4); repeat constructor. apply IH.
Qed.

Lemma posts_only_fetch_data b index : posts_only b (fetch_data b index).
Proof.
  constructor. intros [|]; [constructor | apply posts_only_attempts].
Qed.

Lemma first_queued_spec fs k i :
  first_queued fs k = Some i →
  ∃ i', i = k + i'
        ∧ (∀ a fa, a < i' → fs !! a = Some fa → is_queued fa = false)
        ∧ ∃ f, fs !! i' = Some f ∧ is_queued f = true.
Proof.
  revert k. induction fs as [|g fs IH]; intros k Hfq; [done|].
  simpl in Hfq. destruct (is_queued g) eqn:Hg.
  - injection Hfq as <-. exists 0. split; [lia|]. split; [lia|]. eauto.
  - apply IH in Hfq as (i' & -> & Hbefore & f & Hf & Hq).
    exists (S i'). split; [lia|]. split; [|eauto].
    intros [|a] fa Ha Hfa; simplify_eq/=; [done|].
    eapply Hbefore; [|done]. lia.
Qed.

Lemma elem_of_absorb (V R : gset str) o d :
  d ∈ absorb V R o
  ↔ d ∈ R ∨ (d ∈ V ∧ ∃ items it, o = Some items ∧ it ∈ items
                                  ∧ d ∈ selected_list it).
Proof.
  destruct o as [items|].
  - rewrite elem_of_absorb_Some. split.
    + intros [?|[? (it & ? & ?)]]; [by left|]. right. split; [done|].
      by exists items, it.
    + intros [?|[? (items' & it & [= <-] & ? & ?)]]; [by left|].
      right. split; [done|]. by exists it.
  - simpl. split; [by left|]. by intros [?|[_ (? & ? & [=] & _)]].
Qed.

(** *** The invariant holds at dispatch *)

Lemma loop_inv_dispatch V bs flag : loop_inv V bs (dispatch V bs flag).
Proof.
  assert (Hq : ∀ i f, submit_all bs !! i = Some f →
                 ∃ b, bs !! i = Some b ∧ f = Queued (fetch_data b i)).
  { intros i f Hf. unfold submit_all in Hf.
    apply list_lookup_imap_Some in Hf as (b & Hb & ->). eauto. }
  split; simpl.
  - done.
  - apply length_submit_all.
  - intros i f (b & Hb & ->)%Hq. exists b. split; [done|].
    apply posts_only_fetch_data.
  - by intros i payload r ?%elem_of_nil.
  - constructor.
  - by intros i ?%elem_of_nil.
  - done.
  - done.
  - done.
  - intros _ d. rewrite elem_of_empty. split; [done|].
    by intros [_ (i & ? & ? & ?%elem_of_nil & _)].
  - rewrite count_active_inactive; [unfold max_workers; lia|].
    apply Forall_forall. intros f Hf.
    apply list_elem_of_lookup in Hf as [i Hi].
    by apply Hq in Hi as (b & _ & ->).
  - intros i j f g _ _ (b & _ & ->)%Hq _. done.
Qed.

(** *** A pool thread changes one future that is not done *)

Lemma lookup_insert_done (fs : list future) (i : nat) f f' (j : nat) :
  fs !! i = Some f → done f = None →
  is_Some (fs !! j ≫= done) → <[i:=f']> fs !! j = fs !! j.
Proof.
  intros Hi Hf [o Ho]. apply list_lookup_insert_ne. intros ->.
  rewrite Hi in Ho. simpl in Ho. congruence.
Qed.

Lemma loop_inv_set_futures V bs s i f f' :
  loop_inv V bs s →
  futures s !! i = Some f → done f = None →
  (∀ b, posts_only b (prog_of f) → posts_only b (prog_of f')) →
  (Nat.b2n (active f') ≤ Nat.b2n (active f)
   ∨ count_active (futures s) < max_workers) →
  is_queued f' = false →
  (∀ a fa, a < i → futures s !! a = Some fa → is_queued fa = false) →
  loop_inv V bs (set_futures s (<[i:=f']> (futures s))).
Proof.
  intros [Hin Hlen Hprogs Htrace Hnodup Hyd Hple Hpb Hex Hres Hact0 Hfifo] Hi Hf Hposts Hact Hq' Hbefore.
  assert (Hsame : ∀ j, j ∈ yielded s →
            <[i:=f']> (futures s) !! j = futures s !! j).
  { intros j Hj. eapply lookup_insert_done; eauto. }
  assert (Habs : ∀ d, absorbed (set_futures s (<[i:=f']> (futures s))) d
                      ↔ absorbed s d).
  { intros d. unfold absorbed. simpl. split.
    - intros (j & body & it & Hj & Hfj & ?). exists j, body, it.
      rewrite Hsame in Hfj by done. done.
    - intros (j & body & it & Hj & Hfj & ?). exists j, body, it.
      rewrite Hsame by done. done. }
  split; simpl; try done.
  - by rewrite length_insert.
  - intros j g Hg. destruct (decide (j = i)) as [->|Hne].
    + rewrite list_lookup_insert_eq in Hg by by eapply lookup_lt_Some.
      injection Hg as <-.
      destruct (Hprogs i f Hi) as (b & ? & ?). eauto.
    + rewrite list_lookup_insert_ne in Hg by done. eauto.
  - intros j Hj. rewrite Hsame by done. eauto.
  - intros Hl. by rewrite length_insert; auto.
  - intros Hl d. rewrite Habs. auto.
  - pose proof (count_active_insert (futures s) i f f' Hi) as Hc.
    unfold max_workers in *.
    destruct (active f), (active f'); simpl in *; destruct Hact; lia.
  - intros a b fa fb Hab Ha Hb Hqa.
    destruct (decide (a = i)) as [->|Hai].
    { rewrite list_lookup_insert_eq in Ha by by eapply lookup_lt_Some.
      simplify_eq. congruence. }
    rewrite list_lookup_insert_ne in Ha by done.
    destruct (decide (b = i)) as [->|Hbi].
    { specialize (Hbefore a fa Hab Ha). congruence. }
    rewrite list_lookup_insert_ne in Hb by done. eauto.
Qed.

Lemma loop_inv_add_event V bs s i e :
  loop_inv V bs s →
  (∀ payload r, e = EPost payload r → bs !! i = Some payload) →
  loop_inv V bs (add_event s i e).
Proof.
  intros [Hin Hlen Hprogs Htrace Hnodup Hyd Hple Hpb Hex Hres Hact0 Hfifo] He. split; simpl; try done.
  intros j payload r [Hj|Hj%list_elem_of_singleton]%elem_of_app; [eauto|].
  simplify_eq. eauto.
Qed.

Lemma loop_inv_work V bs s i r s' :
  loop_inv V bs s → work_step s i r = Some s' → loop_inv V bs s'.
Proof.
  intros Hinv Hstep. unfold work_step in Hstep.
  destruct (futures s !! i) as [f|] eqn:Hi; [|done].
  destruct f as [w|p]; [done|].
  destruct (inv_progs _ _ _ Hinv i _ Hi) as (b & Hb & Hp). simpl in Hp.
  assert (Hbefore : ∀ a fa, a < i → futures s !! a = Some fa →
                      is_queued fa = false).
  { intros a fa Ha Hfa. destruct (is_queued fa) eqn:Hq; [|done].
    by rewrite <- (inv_fifo _ _ _ Hinv a i fa (Running p) Ha Hfa Hi Hq). }
  assert (Hle : ∀ g, Nat.b2n (active g) ≤ 1)
    by (intros g; destruct (active g); simpl; lia).
  destruct p as [| |k|payload k|secs k|m k]; simplify_eq.
  - apply loop_inv_add_event; [|by intros ? ? [=]].
    eapply loop_inv_set_futures;
      [exact Hinv | exact Hi | done | | left; apply Hle | done
      | exact Hbefore].
    intros b' Hb'. simpl in *. inversion Hb'; subst. auto.
  - inversion Hp; subst.
    apply loop_inv_add_event; [|by intros ? ? [= -> ->]].
    eapply loop_inv_set_futures;
      [exact Hinv | exact Hi | done | | left; apply Hle | done
      | exact Hbefore].
    intros b' Hb'. simpl in *. inversion Hb'; subst. auto.
  - apply loop_inv_add_event; [|by intros ? ? [=]].
    eapply loop_inv_set_futures;
      [exact Hinv | exact Hi | done | | left; apply Hle | done
      | exact Hbefore].
    intros b' Hb'. simpl in *. by inversion Hb'; subst.
  - apply loop_inv_add_event; [|by intros ? ? [=]].
    eapply loop_inv_set_futures;
      [exact Hinv | exact Hi | done | | left; apply Hle | done
      | exact Hbefore].
    intros b' Hb'. simpl in *. by inversion Hb'; subst.
Qed.

(** *** The main thread takes a future *)

Lemma loop_inv_collect V bs s i s' :
  loop_inv V bs s → collect_step s i = Some s' → loop_inv V bs s'.
Proof.
  intros Hinv Hstep. pose proof Hinv as [Hin Hlen Hprogs Htrace Hnodup Hyd Hple Hpb Hex Hres Hact0 Hfifo].
  unfold collect_step in Hstep.
  destruct (loop s) eqn:Hl; try done.
  destruct (futures s !! i ≫= done) as [o|] eqn:Ho; [|done].
  destruct (decide (i ∈ yielded s)) as [|Hni]; [done|].
  assert (Hnd : NoDup (yielded s ++ [i])).
  { apply NoDup_app. split; [done|]. split; [|apply NoDup_singleton].
    by intros j Hj ->%list_elem_of_singleton. }
  assert (Hy : ∀ j, j ∈ yielded s ++ [i] →
                 is_Some (futures s !! j ≫= done)).
  { intros j [?| ->%list_elem_of_singleton]%elem_of_app; [auto|].
    by rewrite Ho. }
  destruct (shutdown_flag s); [|destruct o as [d|e]]; simplify_eq;
    split; simpl; try done;
    try (rewrite length_app; simpl; lia);
    try (by intros [?|?]).
  - rewrite length_app. simpl. intros _. rewrite Hpb by auto. done.
  - intros _ d'. rewrite elem_of_absorb, Hres by auto.
    unfold absorbed. simpl. split.
    + intros [[HV (j & body & it & Hj & ?)]|[HV (items & it & -> & ? & ?)]].
      * split; [done|]. exists j, body, it. rewrite elem_of_app. auto.
      * split; [done|]. exists i, items, it. rewrite elem_of_app.
        split; [right; apply list_elem_of_here|].
        destruct (futures s !! i) as [[|[]]|]; simplify_eq/=. done.
    + intros [HV (j & body & it & Hj & Hfj & Hit & Hd)].
      apply elem_of_app in Hj as [Hj| ->%list_elem_of_singleton].
      * left. split; [done|]. by exists j, body, it.
      * right. split; [done|]. exists body, it.
        rewrite Hfj in Ho. simpl in Ho. by simplify_eq.
Qed.

Lemma loop_inv_step V bs a s s' :
  loop_inv V bs s → step a s = Some s' → loop_inv V bs s'.
Proof.
  intros Hinv Hstep. destruct a as [| |i r|i|]; simpl in Hstep.
  - simplify_eq. destruct Hinv. by split.
  - destruct (count_active _ <? _) eqn:Hc; [|done].
    apply Nat.ltb_lt in Hc.
    destruct (first_queued _ _) as [i|] eqn:Hfq; [|done].
    apply first_queued_spec in Hfq as (i' & -> & Hbefore & f & Hf & Hq).
    simpl in *. rewrite Hf in Hstep. destruct f as [w|]; [|done].
    simplify_eq. eapply loop_inv_set_futures; eauto.
  - by eapply loop_inv_work.
  - by eapply loop_inv_collect.
  - destruct (loop s) eqn:Hl; try done.
    destruct (decide _) as [Hall|]; [|done]. simplify_eq.
    destruct Hinv as [Hin Hlen Hprogs Htrace Hnodup Hyd Hple Hpb Hex Hres Hact0 Hfifo]. split; simpl; try done.
    + intros _. auto.
    + intros _ d. rewrite Hres by auto. done.
Qed.

Lemma loop_inv_run V bs sched s :
  loop_inv V bs s → loop_inv V bs (run sched s).
Proof.
  revert s. induction sched as [|a sched IH]; intros s Hinv; [done|].
  rewrite run_cons.
  destruct (step_or_stay_cases s a) as [[_ ->]|(s' & Hstep & ->)];
    [by apply IH|].
  apply IH. by eapply loop_inv_step.
Qed.

Lemma loop_inv_reachable V bs flag sched :
  loop_inv V bs (run sched (dispatch V bs flag)).
Proof. apply loop_inv_run, loop_inv_dispatch. Qed.

(** *** What the invariant gives *)

Lemma yielded_in_range V bs s i :
  loop_inv V bs s → i ∈ yielded s → i < length bs.
Proof.
  intros Hinv [o Ho]%(inv_yielded _ _ _ Hinv).
  rewrite <- (inv_length _ _ _ Hinv).
  destruct (futures s !! i) as [f|] eqn:Hf; [|done].
  by eapply lookup_lt_Some.
Qed.

Lemma yielded_submseteq V bs s :
  loop_inv V bs s → yielded s ⊆+ seq 0 (length bs).
Proof.
  intros Hinv. apply NoDup_submseteq; [by eapply inv_nodup|].
  intros i Hi. apply elem_of_seq. split; [lia|].
  simpl. by eapply yielded_in_range.
Qed.

(** When the loop has run to its end, every future was given to it. *)
Lemma exhausted_all_yielded V bs s i :
  loop_inv V bs s → loop s = Exhausted → i < length bs → i ∈ yielded s.
Proof.
  intros Hinv Hl Hi.
  assert (yielded s ≡ₚ seq 0 (length bs)) as ->.
  { apply submseteq_length_Permutation; [by eapply yielded_submseteq|].
    rewrite length_seq, (inv_exhausted _ _ _ Hinv Hl).
    by rewrite (inv_length _ _ _ Hinv). }
  apply elem_of_seq. lia.
Qed.

(** X18: at most [max_workers], that is 4, fetches are running in any
    state of a run, and the work items are started in the order in which
    they were submitted: behind a queued one, all are queued. *)
Theorem pool_bounded V bs flag sched :
  count_active (futures (run sched (dispatch V bs flag))) ≤ 4
  ∧ ∀ i j f g,
      i < j →
      futures (run sched (dispatch V bs flag)) !! i = Some f →
      futures (run sched (dispatch V bs flag)) !! j = Some g →
      is_queued f = true → is_queued g = true.
Proof.
  pose proof (loop_inv_reachable V bs flag sched) as Hinv.
  split; [exact (inv_active _ _ _ Hinv) | exact (inv_fifo _ _ _ Hinv)].
Qed.

(** X19: the thread that runs future [i] posts batch [i] and no other
    payload; so every request of a run carries one of the batches that
    were dispatched. *)
Theorem pool_posts_own_batch V bs flag sched :
  (∀ i payload r,
     (i, EPost payload r) ∈ trace (run sched (dispatch V bs flag)) →
     bs !! i = Some payload)
  ∧ Forall (λ payload, payload ∈ bs)
           (network_calls (run sched (dispatch V bs flag))).
Proof.
  pose proof (loop_inv_reachable V bs flag sched) as Hinv.
  split; [exact (inv_trace _ _ _ Hinv)|].
  unfold network_calls, posts_of. apply Forall_forall. intros payload Hp.
  apply list_elem_of_omap in Hp as (e & He & Hpe).
  apply list_elem_of_fmap in He as ([i e'] & -> & Hie). simpl in Hpe.
  destruct e' as [|payload' r| |]; simplify_eq.
  apply (inv_trace _ _ _ Hinv) in Hie.
  by eapply list_elem_of_lookup_2.
Qed.

(** X20: the loop is given every future at most once; the progress bar
    counts the futures it absorbed, so it never passes the number of
    batches, and it is full when the loop has run to its end. *)
Theorem pool_progress V bs flag sched :
  NoDup (yielded (run sched (dispatch V bs flag)))
  ∧ pbar (run sched (dispatch V bs flag))
    ≤ length (yielded (run sched (dispatch V bs flag)))
  ∧ length (yielded (run sched (dispatch V bs flag))) ≤ length bs
  ∧ (loop (run sched (dispatch V bs flag)) = Exhausted →
     pbar (run sched (dispatch V bs flag)) = length bs).
Proof.
  pose proof (loop_inv_reachable V bs flag sched) as Hinv.
  split; [exact (inv_nodup _ _ _ Hinv)|].
  split; [exact (inv_pbar_le _ _ _ Hinv)|]. split.
  - etrans; [by apply submseteq_length, (yielded_submseteq V bs)|].
    by rewrite length_seq.
  - intros Hl. rewrite (inv_pbar _ _ _ Hinv) by auto.
    rewrite (inv_exhausted _ _ _ Hinv Hl). exact (inv_length _ _ _ Hinv).
Qed.

Lemma exhausted_results V bs s :
  loop_inv V bs s → loop s = Exhausted →
  written s = Some (results s)
  ∧ ∀ d, d ∈ results s
         ↔ d ∈ V ∧ ∃ i body it,
             futures s !! i = Some (Running (Return (Some body)))
             ∧ it ∈ body ∧ d ∈ selected_list it.
Proof.
  intros Hinv Hl. split.
  - unfold written. rewrite Hl.
    assert (all_done s = true) as ->; [|done].
    unfold all_done. apply forallb_forall. intros f Hf.
    apply list_elem_of_In, list_elem_of_lookup in Hf as [i Hi].
    assert (i ∈ yielded s) as Hy.
    { eapply exhausted_all_yielded; eauto.
      rewrite <- (inv_length _ _ _ Hinv). by eapply lookup_lt_Some. }
    apply (inv_yielded _ _ _ Hinv) in Hy. rewrite Hi in Hy.
    by apply bool_decide_eq_true.
  - intros d. rewrite (inv_results _ _ _ Hinv) by auto.
    unfold absorbed. split.
    + intros [HV (i & body & it & _ & ?)]. eauto 10.
    + intros [HV (i & body & it & Hi & ?)]. split; [done|].
      exists i, body, it. split; [|done].
      eapply exhausted_all_yielded; eauto.
      rewrite <- (inv_length _ _ _ Hinv). by eapply lookup_lt_Some.
Qed.

(** X21: when the loop has run to its end, the results are written, and
    they are exactly the domains of the validated set that a record of
    some response lists under its selected relation, whatever the order in
    which the fetches completed. *)
Theorem pool_results_at_end V bs flag sched :
  loop (run sched (dispatch V bs flag)) = Exhausted →
  written (run sched (dispatch V bs flag))
  = Some (results (run sched (dispatch V bs flag)))
  ∧ ∀ d, d ∈ results (run sched (dispatch V bs flag))
         ↔ d ∈ V ∧ ∃ i body it,
             futures (run sched (dispatch V bs flag)) !! i
             = Some (Running (Return (Some body)))
             ∧ it ∈ body ∧ d ∈ selected_list it.
Proof.
  intros Hl. eapply exhausted_results; [|done]. apply loop_inv_reachable.
Qed.

Lemma pool_results_at_end_witness :
  written (run (serve (λ _, [Item (Some [py "a.com"; py "z.com"]) None]) 0 1
                ++ collect_all 1)
               (dispatch {[ py "a.com" ]} [[py "a.com"]] false))
  = Some (results
            (run (serve (λ _, [Item (Some [py "a.com"; py "z.com"]) None]) 0 1
                  ++ collect_all 1)
                 (dispatch {[ py "a.com" ]} [[py "a.com"]] false))).
Proof.
  refine (proj1 (pool_results_at_end {[ py "a.com" ]} [[py "a.com"]] false
                   _ _)).
  vm_compute. reflexivity.
Defined.

(** *** What no step undoes *)

Lemma step_monotone a s s' :
  step a s = Some s' →
  results s ⊆ results s' ∧ pbar s ≤ pbar s'
  ∧ trace s `prefix_of` trace s'.
Proof.
  destruct a as [| |i r|i|]; simpl; intros H.
  - by simplify_eq.
  - repeat case_match; by simplify_eq.
  - unfold work_step in H.
    repeat case_match; simplify_eq; simpl;
      (split; [done|]; split; [done|]; by apply prefix_app_r).
  - unfold collect_step in H. repeat case_match; simplify_eq; simpl;
      try done.
    split; [|split; [lia|done]]. rewrite absorb_union. apply union_subseteq_l.
  - repeat case_match; by simplify_eq.
Qed.

(** X22: nothing is taken back: from any state on, the flag stays set once
    it is set, the results only grow, the progress bar only advances, and
    the trace is only extended. *)
Theorem pool_monotone sched s :
  (shutdown_flag s = true → shutdown_flag (run sched s) = true)
  ∧ results s ⊆ results (run sched s)
  ∧ pbar s ≤ pbar (run sched s)
  ∧ trace s `prefix_of` trace (run sched s).
Proof.
  split; [intros Hflag; by apply run_flag|].
  revert s. induction sched as [|a sched IH]; intros s; [done|].
  rewrite run_cons.
  destruct (step_or_stay_cases s a) as [[_ ->]|(s' & Hstep & ->)];
    [by apply IH|].
  destruct (step_monotone a s s' Hstep) as (Hr & Hp & Ht).
  destruct (IH s') as (Hr' & Hp' & Ht').
  split; [by etrans|]. split; [lia | by etrans].
Qed.

(** X23: when the loop is given a future whose fetch raised an exception
    that [fetch_data] does not catch, and the flag is unset, the exception
    leaves the loop: the results stay as they are and are never written. *)
Theorem pool_unwinding s i e s' sched :
  step (Collect i) s = Some s' →
  shutdown_flag s = false →
  futures s !! i = Some (Running (Raise e)) →
  loop s' = Unwinding e
  ∧ results (run sched s') = results s
  ∧ written (run sched s') = None.
Proof.
  simpl. unfold collect_step. intros Hstep Hflag Hi.
  rewrite Hflag, Hi in Hstep. simpl in Hstep.
  assert (loop s' = Unwinding e ∧ results s' = results s) as [Hl Hr]
    by (repeat case_match; by simplify_eq).
  destruct (run_past_loop sched s') as [Hl' Hr']; [by rewrite Hl|].
  split; [done|]. split; [congruence|].
  unfold written. by rewrite Hl', Hl.
Qed.

Lemma pool_unwinding_witness :
  ∃ s', step (Collect 0) faulted_future = Some s'
        ∧ written (run [EndLoop; Sigint] s') = None.
Proof.
  eexists. split; [reflexivity|].
  exact (proj2 (proj2 (pool_unwinding faulted_future 0 _ _ [EndLoop; Sigint]
                         eq_refl eq_refl eq_refl))).
Defined.

(** *** A run in which every batch is answered at its first attempt *)

Lemma served_S resp n :
  served resp 0 (S n)
  = served resp 0 n ++ [Running (Return (Some (resp n)))].
Proof. unfold served. by rewrite seq_S, fmap_app. Qed.

Lemma served_lookup resp n i :
  i < n → served resp 0 n !! i = Some (Running (Return (Some (resp i)))).
Proof.
  intros Hi. unfold served. rewrite list_lookup_fmap.
  by rewrite lookup_seq_lt.
Qed.

Lemma length_served resp n : length (served resp 0 n) = n.
Proof. unfold served. by rewrite length_fmap, length_seq. Qed.

Lemma serve_S resp from n :
  serve resp from (S n)
  = [Start; Work from (Response []); Work from (Response []);
     Work from (Response (resp from))] ++ serve resp (S from) n.
Proof. done. Qed.

Lemma insert_middle (pre : list future) f g qs :
  <[length pre := g]> (pre ++ f :: qs) = pre ++ g :: qs.
Proof.
  rewrite <- (Nat.add_0_r (length pre)). by rewrite insert_app_r.
Qed.

(** The four steps of one work item that is answered at once. *)
Lemma run_serve_one resp pre b i qs s :
  futures s = pre ++ Queued (fetch_data b i) :: qs →
  Forall (λ f, active f = false ∧ is_queued f = false) pre →
  Forall (λ f, active f = false) qs →
  shutdown_flag s = false →
  ∃ s',
    run [Start; Work (length pre) (Response []);
         Work (length pre) (Response []);
         Work (length pre) (Response (resp (length pre)))] s = s'
    ∧ futures s'
      = pre ++ Running (Return (Some (resp (length pre)))) :: qs
    ∧ loop s' = loop s ∧ yielded s' = yielded s
    ∧ shutdown_flag s' = false
    ∧ network_calls s' = network_calls s ++ [b].
Proof.
  intros Hfut Hpre Hqs Hflag.
  assert (step Start s
          = Some (set_futures s (pre ++ Running (fetch_data b i) :: qs)))
    as Hstart.
  { simpl. rewrite Hfut. rewrite count_active_inactive.
    - rewrite (first_queued_app pre (Queued (fetch_data b i)) qs 0);
        [|by eapply Forall_impl; [exact Hpre|]; intros ? [_ ?]|done].
      simpl. rewrite list_lookup_middle by done.
      by rewrite insert_middle.
    - apply Forall_app. split.
      + eapply Forall_impl; [exact Hpre|]. by intros ? [? _].
      + by constructor. }
  set (s1 := set_futures s (pre ++ Running (fetch_data b i) :: qs)) in *.
  assert (step (Work (length pre) (Response [])) s1
          = Some (add_event
                    (set_futures s1
                       (pre ++ Running (attempts 5 0 b i) :: qs))
                    (length pre) (EIsSet false))) as Hw1.
  { simpl. unfold work_step. subst s1. simpl.
    rewrite list_lookup_middle by done. unfold fetch_data.
    rewrite Hflag. by rewrite insert_middle. }
  set (s2 := add_event _ _ _) in Hw1.
  assert (∃ k, attempts 5 0 b i = IsSet k
               ∧ k false
                 = Post b (λ r, match r with
                                | Response body => Return (Some body)
                                | NullResponse => Return None
                                | RequestException e =>
                                    Log (WarnAttemptFailed (i + 1) (0 + 1) e)
                                      (Sleep (2 ^ 0 * 2)
                                             (attempts 4 1 b i))
                                | OtherException e => Raise e
                                end)) as (k & Hk & Hk').
  { rewrite attempts_S. eexists. split; [done|]. done. }
  assert (step (Work (length pre) (Response [])) s2
          = Some (add_event
                    (set_futures s2 (pre ++ Running (k false) :: qs))
                    (length pre) (EIsSet false))) as Hw2.
  { simpl. unfold work_step. subst s2 s1. simpl.
    rewrite list_lookup_middle by done. rewrite Hk, Hflag.
    by rewrite insert_middle. }
  set (s3 := add_event _ _ _) in Hw2.
  assert (step (Work (length pre) (Response (resp (length pre)))) s3
          = Some (add_event
                    (set_futures s3
                       (pre ++ Running (Return (Some (resp (length pre))))
                            :: qs))
                    (length pre)
                    (EPost b (Response (resp (length pre)))))) as Hw3.
  { simpl. unfold work_step. subst s3 s2 s1. simpl.
    rewrite list_lookup_middle by done. rewrite Hk'.
    by rewrite insert_middle. }
  eexists. split.
  { rewrite !run_cons.
    rewrite (step_or_stay_Some _ _ _ Hstart), (step_or_stay_Some _ _ _ Hw1),
      (step_or_stay_Some _ _ _ Hw2), (step_or_stay_Some _ _ _ Hw3). done. }
  subst s3 s2 s1. simpl. repeat split; try done.
  rewrite !network_calls_add_event. simpl. unfold network_calls. simpl.
  rewrite !fmap_app, !posts_of_app. simpl. by rewrite !app_nil_r.
Qed.

Lemma queued_inactive qs bq :
  Forall2 (λ f b, ∃ i, f = Queued (fetch_data b i)) qs bq →
  Forall (λ f, active f = false) qs.
Proof. induction 1 as [|f b qs bq (i & ->) _ IH]; by constructor. Qed.

Lemma run_serve resp qs : ∀ bq n s,
  futures s = served resp 0 n ++ qs →
  Forall2 (λ f b, ∃ i, f = Queued (fetch_data b i)) qs bq →
  shutdown_flag s = false →
  futures (run (serve resp n (length qs)) s)
  = served resp 0 (n + length qs)
  ∧ loop (run (serve resp n (length qs)) s) = loop s
  ∧ yielded (run (serve resp n (length qs)) s) = yielded s
  ∧ shutdown_flag (run (serve resp n (length qs)) s) = false
  ∧ network_calls (run (serve resp n (length qs)) s)
    = network_calls s ++ bq.
Proof.
  induction qs as [|q qs IH]; intros bq n s Hfut Hqs Hflag.
  - apply Forall2_nil_inv_l in Hqs as ->. simpl.
    rewrite Nat.add_0_r, !app_nil_r in *. done.
  - apply Forall2_cons_inv_l in Hqs as (b & bq' & (i & ->) & Hqs & ->).
    cbn [length]. rewrite serve_S, run_app.
    destruct (run_serve_one resp (served resp 0 n) b i qs s)
      as (s' & Hrun & Hf' & Hl' & Hy' & Hflag' & Hn'); [done| | |done|].
    { apply Forall_forall. intros f Hf. unfold served in Hf.
      by apply list_elem_of_fmap in Hf as (j & -> & _). }
    { by eapply queued_inactive. }
    rewrite length_served in Hrun, Hf'. rewrite Hrun.
    destruct (IH bq' (S n) s') as (Hf & Hl & Hy & Hfl & Hn);
      [by rewrite served_S, <- app_assoc|done|done|].
    rewrite Hf, Hl, Hy, Hfl, Hn, Hl', Hy', Hn'.
    repeat split; try done.
    + f_equal. lia.
    + by rewrite <- app_assoc.
Qed.

Lemma submit_all_forall2 bs :
  Forall2 (λ f b, ∃ i, f = Queued (fetch_data b i)) (submit_all bs) bs.
Proof.
  unfold submit_all.
  assert (∀ g, Forall2 (λ f b, ∃ i, f = Queued (fetch_data b i))
                 (imap (λ i b, Queued (fetch_data b (g i))) bs) bs) as H.
  { induction bs as [|b bs IH]; intros g; simpl; constructor; eauto. }
  apply (H id).
Qed.

Lemma collect_S s k :
  loop s = InLoop → shutdown_flag s = false →
  yielded s = seq 0 k →
  (∃ body, futures s !! k = Some (Running (Return (Some body)))) →
  ∃ s', step (Collect k) s = Some s'
        ∧ futures s' = futures s ∧ yielded s' = seq 0 (S k)
        ∧ loop s' = InLoop ∧ shutdown_flag s' = false
        ∧ trace s' = trace s.
Proof.
  intros Hl Hflag Hy [body Hk].
  assert (k ∉ yielded s) as Hni.
  { rewrite Hy. intros Hin%elem_of_seq. lia. }
  exists {| input := input s; shutdown_flag := shutdown_flag s;
            futures := futures s; yielded := yielded s ++ [k];
            loop := InLoop;
            results := absorb (input s) (results s) (Some body);
            pbar := pbar s + 1; trace := trace s; log := log s |}.
  split.
  - cbn [step]. unfold collect_step. rewrite Hl, Hk, Hflag.
    cbn [mbind option_bind done]. by rewrite decide_False.
  - cbn [futures yielded loop shutdown_flag trace].
    rewrite Hy, seq_S. done.
Qed.

Lemma run_collect resp n m : ∀ k s,
  k + m ≤ n →
  futures s = served resp 0 n → yielded s = seq 0 k →
  loop s = InLoop → shutdown_flag s = false →
  futures (run (Collect <$> seq k m) s) = served resp 0 n
  ∧ yielded (run (Collect <$> seq k m) s) = seq 0 (k + m)
  ∧ loop (run (Collect <$> seq k m) s) = InLoop
  ∧ trace (run (Collect <$> seq k m) s) = trace s.
Proof.
  induction m as [|m IH]; intros k s Hkm Hf Hy Hl Hflag.
  - simpl. by rewrite Nat.add_0_r.
  - cbn [seq fmap list_fmap]. rewrite run_cons.
    destruct (collect_S s k Hl Hflag Hy)
      as (s' & Hstep & Hf' & Hy' & Hl' & Hflag' & Ht').
    { exists (resp k). rewrite Hf. apply served_lookup. lia. }
    rewrite (step_or_stay_Some _ _ _ Hstep).
    destruct (IH (S k) s') as (? & ? & ? & ?); [lia|congruence|done..|].
    repeat split; try done; try congruence.
    by rewrite Nat.add_succ_r.
Qed.

(** X24: for every list of batches and every choice of responses there is
    a run, with the flag unset, in which every batch is posted once, in
    the order of the batches, and is answered at its first attempt; the
    loop runs to its end, and the results written are exactly the domains
    of the validated set that the responses list. *)
Theorem pool_completes V bs (resp : nat → data) :
  ∃ sched R,
    loop (run sched (dispatch V bs false)) = Exhausted
    ∧ network_calls (run sched (dispatch V bs false)) = bs
    ∧ written (run sched (dispatch V bs false)) = Some R
    ∧ ∀ d, d ∈ R
           ↔ d ∈ V ∧ ∃ i it, i < length bs ∧ it ∈ resp i
                             ∧ d ∈ selected_list it.
Proof.
  exists (serve resp 0 (length bs) ++ collect_all (length bs)).
  set (sched := serve resp 0 (length bs) ++ collect_all (length bs)).
  exists (results (run sched (dispatch V bs false))).
  destruct (run_serve resp (submit_all bs) bs 0 (dispatch V bs false))
    as (Hf & Hl & Hy & Hflag & Hn); [done|apply submit_all_forall2|done|].
  rewrite length_submit_all in Hf, Hl, Hy, Hflag, Hn. simpl in Hf, Hl, Hy, Hn.
  set (s1 := run (serve resp 0 (length bs)) (dispatch V bs false)) in *.
  destruct (run_collect resp (length bs) (length bs) 0 s1)
    as (Hf2 & Hy2 & Hl2 & Ht2); [lia|done..|].
  set (s2 := run (Collect <$> seq 0 (length bs)) s1) in *.
  assert (∃ s3, step EndLoop s2 = Some s3 ∧ loop s3 = Exhausted
                ∧ futures s3 = futures s2 ∧ trace s3 = trace s2)
    as (s3 & Hend & Hl3 & Hf3 & Ht3).
  { simpl. rewrite Hl2, Hy2, Hf2, length_served, length_seq. simpl.
    rewrite decide_True by done. eexists. by repeat split. }
  assert (run sched (dispatch V bs false) = s3) as Hs3.
  { subst sched. unfold collect_all. rewrite !run_app. fold s1. fold s2.
    rewrite run_cons. by rewrite (step_or_stay_Some _ _ _ Hend). }
  rewrite Hs3.
  destruct (exhausted_results V bs s3) as (Hw & Hres);
    [rewrite <- Hs3; apply loop_inv_reachable|done|].
  split; [done|]. split; [|split; [done|]].
  - unfold network_calls. rewrite Ht3, Ht2. exact Hn.
  - intros d. rewrite Hres, Hf3, Hf2. split.
    + intros [HV (i & body & it & Hi & Hit & Hd)]. split; [done|].
      assert (i < length bs) as Hlt.
      { apply lookup_lt_Some in Hi. by rewrite length_served in Hi. }
      rewrite served_lookup in Hi by done. simplify_eq. eauto.
    + intros [HV (i & it & Hlt & Hit & Hd)]. split; [done|].
      exists i, (resp i), it. by rewrite served_lookup.
Qed.

End PoolMore.
